(** * Trusted-party Beaver generator (semi2k): a shallow embedding

    Source: [libspu/mpc/semi2k/beaver/beaver_tfp.cc].

    The embedding follows the C++ class [BeaverTfpUnsafe]: one record for
    the object state ([lctx_], [seed_], [counter_], [seeds_]), one function
    per method, written in a small blocking/state monad over the process
    environment (messages in flight, an observation trace, the position in
    the entropy stream).  What lives in other translation units
    ([prg_tensor.h], [trusted_party.h], [ring_ops.h], the link layer) is
    modelled from the specification and marked as such. *)

From Stdlib Require Import ZArith List Lia Bool String Arith.
Import ListNotations.
Open Scope Z_scope.

(* ===================================================================== *)
(** ** Rings and dense arrays *)
(* ===================================================================== *)

(** Modelled from the spec: [FieldType] (declared outside this file), the
    selectable ring width, "32/64/128-bit rings". *)
Inductive FieldType : Type := FM32 | FM64 | FM128.

Definition SizeOf (field : FieldType) : Z :=
  match field with FM32 => 32 | FM64 => 64 | FM128 => 128 end.

Definition ring_modulus (field : FieldType) : Z := 2 ^ SizeOf field.

(** Modelled from the spec: [Shape] (declared outside this file), a vector
    of [int64_t] extents; [numel] is the number of elements, the product
    of the extents. *)
Definition Shape : Type := list Z.

Definition numel (shape : Shape) : Z := fold_right Z.mul 1 shape.

(** Modelled from the spec: [NdArrayRef] (declared outside this file), a
    "dense array of fixed-width modular integers, row-major, annotated
    with field width and shape". *)
Record NdArrayRef : Type := mkNdArray {
  nd_eltype : FieldType;
  nd_shape : Shape;
  nd_data : list Z
}.

Definition Triple : Type := (NdArrayRef * NdArrayRef * NdArrayRef)%type.
Definition Pair : Type := (NdArrayRef * NdArrayRef)%type.

Definition zip_with (f : Z -> Z -> Z) (x y : list Z) : list Z :=
  map (fun p => f (fst p) (snd p)) (combine x y).

(** Modelled from the spec: the Ring Arithmetic Service of [ring_ops.h]
    ("elementwise modular add/xor/shift over dense numeric arrays", which
    "must wrap modulo the ring size").  The in-place forms keep the type and
    shape of their first argument. *)
Definition ring_add_ (x y : NdArrayRef) : NdArrayRef :=
  mkNdArray (nd_eltype x) (nd_shape x)
    (zip_with (fun a b => (a + b) mod ring_modulus (nd_eltype x)) (nd_data x) (nd_data y)).

(** Modelled from the spec: [ring_xor_] of [ring_ops.h], "xor_in_place". *)
Definition ring_xor_ (x y : NdArrayRef) : NdArrayRef :=
  mkNdArray (nd_eltype x) (nd_shape x) (zip_with Z.lxor (nd_data x) (nd_data y)).

(** Modelled from the spec: [ring_sub] of [ring_ops.h], the elementwise
    difference modulo the ring ("adjustment = ideal - actual"). *)
Definition ring_sub (x y : NdArrayRef) : NdArrayRef :=
  mkNdArray (nd_eltype x) (nd_shape x)
    (zip_with (fun a b => (a - b) mod ring_modulus (nd_eltype x)) (nd_data x) (nd_data y)).

(** Modelled from the spec: [ring_mul] of [ring_ops.h], "a·b elementwise,
    ring arithmetic". *)
Definition ring_mul (x y : NdArrayRef) : NdArrayRef :=
  mkNdArray (nd_eltype x) (nd_shape x)
    (zip_with (fun a b => (a * b) mod ring_modulus (nd_eltype x)) (nd_data x) (nd_data y)).

(** Modelled from the spec: [ring_and] of [ring_ops.h], "a ∧ b bitwise". *)
Definition ring_and (x y : NdArrayRef) : NdArrayRef :=
  mkNdArray (nd_eltype x) (nd_shape x) (zip_with Z.land (nd_data x) (nd_data y)).

(** Two's-complement reading of a ring element, for the arithmetic shift. *)
Definition to_signed (field : FieldType) (v : Z) : Z :=
  if v <? 2 ^ (SizeOf field - 1) then v else v - ring_modulus field.

(** Modelled from the spec: [ring_arshift] of [ring_ops.h],
    "arithmetic-right-shift(a, bits)" of every element. *)
Definition ring_arshift (x : NdArrayRef) (bits : N) : NdArrayRef :=
  mkNdArray (nd_eltype x) (nd_shape x)
    (map (fun a => Z.shiftr (to_signed (nd_eltype x) a) (Z.of_N bits)
                     mod ring_modulus (nd_eltype x)) (nd_data x)).

Definition zsum (l : list Z) : Z := fold_right Z.add 0 l.

(** Modelled from the spec: [ring_mmul] of [ring_ops.h], "a×b matrix
    product, ring arithmetic", of a row-major (m,k) by a row-major (k,n)
    array. *)
Definition ring_mmul (x y : NdArrayRef) (m n k : Z) : NdArrayRef :=
  mkNdArray (nd_eltype x) [m; n]
    (flat_map (fun i : nat =>
       map (fun j : nat =>
         zsum (map (fun l : nat =>
                      nth (i * Z.to_nat k + l)%nat (nd_data x) 0
                      * nth (l * Z.to_nat n + j)%nat (nd_data y) 0)
                   (seq 0 (Z.to_nat k)))
           mod ring_modulus (nd_eltype x))
         (seq 0 (Z.to_nat n)))
       (seq 0 (Z.to_nat m))).

(** Modelled from the spec: "apply public permutation vector" to an array,
    element [i] of the result being element [perm_vec[i]] of the input. *)
Definition applyPerm (x : NdArrayRef) (perm_vec : list Z) : NdArrayRef :=
  mkNdArray (nd_eltype x) (nd_shape x)
    (map (fun p => nth (Z.to_nat p) (nd_data x) 0) perm_vec).

(** Reduction of the parties' shares: the first array accumulates the
    others, left to right. *)
Definition reduce_arrays (op : NdArrayRef -> NdArrayRef -> NdArrayRef)
    (xs : list NdArrayRef) : NdArrayRef :=
  match xs with
  | [] => mkNdArray FM64 [] []
  | x :: rest => fold_left op rest x
  end.

(* ===================================================================== *)
(** ** The deterministic share generator *)
(* ===================================================================== *)

(** Modelled from the spec: [PrgSeed], "a 128-bit value", and
    [PrgCounter], "a monotonic 128-bit state" (both of [prg_tensor.h]), as
    integers kept below [2^128]. *)
Definition PrgSeed : Type := Z.
Definition PrgCounter : Type := Z.

Definition uint128_modulus : Z := 2 ^ 128.

(** Modelled from the spec: [PrgArrayDesc] of [prg_tensor.h], "{field
    width, shape, seed, counter-range consumed}", the range being
    [desc_counter, desc_counter_end). *)
Record PrgArrayDesc : Type := mkDesc {
  desc_field : FieldType;
  desc_shape : Shape;
  desc_seed : PrgSeed;
  desc_counter : PrgCounter;
  desc_counter_end : PrgCounter
}.

(* ===================================================================== *)
(** ** Buffers and the link layer *)
(* ===================================================================== *)

(** A [yacl::Buffer]: raw bytes, each in [0, 256). *)
Definition Buffer : Type := list Z.

Fixpoint le_bytes (n : nat) (v : Z) : Buffer :=
  match n with
  | O => []
  | S n' => v mod 256 :: le_bytes n' (v / 256)
  end.

Fixpoint le_value (bs : Buffer) : Z :=
  match bs with
  | [] => 0
  | b :: rest => b + 256 * le_value rest
  end.

(** Modelled from the spec: the 128-bit seed travels as a serialized
    value that rank 0 deserializes; sixteen little-endian bytes here. *)
Definition SerializeUint128 (v : Z) : Buffer := le_bytes 16 v.
Definition DeserializeUint128 (buf : Buffer) : Z := le_value buf mod uint128_modulus.

(** [yacl::Buffer(perm_vec.data(), perm_vec.size() * sizeof(int64_t))]:
    the in-memory image of the vector, eight bytes per element,
    two's complement, little endian. *)
Definition Buffer_of_int64s (perm_vec : list Z) : Buffer :=
  flat_map (le_bytes 8) perm_vec.

Definition int64_of_unsigned (u : Z) : Z :=
  if u <? 2 ^ 63 then u else u - 2 ^ 64.

Fixpoint read_int64s (count : nat) (buf : Buffer) : list Z :=
  match count with
  | O => []
  | S count' =>
      int64_of_unsigned (le_value (firstn 8 buf)) :: read_int64s count' (skipn 8 buf)
  end.

(** [absl::MakeSpan(pv_buf.data<int64_t>(), pv_buf.size() / sizeof(int64_t))]. *)
Definition MakeSpan_int64 (pv_buf : Buffer) : list Z :=
  read_int64s (List.length pv_buf / 8) pv_buf.

(** Modelled from the spec: the link context behind [lctx_] ("a fixed set
    of parties ranked 0..N-1"): the party's rank, the world size, and what
    identifies the channel ([ctx_id]); [ctx_child_counter] numbers the
    sub-contexts derived so far. *)
Record Context : Type := mkContext {
  ctx_id : list nat;
  ctx_rank : nat;
  ctx_world_size : nat;
  ctx_child_counter : nat
}.

Definition Rank (lctx : Context) : nat := ctx_rank lctx.
Definition WorldSize (lctx : Context) : nat := ctx_world_size lctx.

(** Modelled from the spec: "a spawn_subcontext() operation producing an
    independent channel": the child gets an identifier of its own, the
    parent only counts one more child.  Returns (child, parent). *)
Definition Context_Spawn (lctx : Context) : Context * Context :=
  (mkContext (ctx_id lctx ++ [ctx_child_counter lctx]) (ctx_rank lctx)
             (ctx_world_size lctx) 0,
   mkContext (ctx_id lctx) (ctx_rank lctx) (ctx_world_size lctx)
             (S (ctx_child_counter lctx))).

Record Message : Type := mkMessage {
  msg_ctx : list nat;
  msg_src : nat;
  msg_dst : nat;
  msg_tag : string;
  msg_body : Buffer
}.

(** What a party can be observed doing: a draw from the generator, a
    point-to-point send, a completed receive. *)
Inductive Event : Type :=
| EvDraw (desc : PrgArrayDesc)
| EvSend (m : Message)
| EvRecv (m : Message).

Definition is_comm (ev : Event) : bool :=
  match ev with EvDraw _ => false | EvSend _ => true | EvRecv _ => true end.

(** The environment a call runs in: messages in flight, the trace of
    events so far (oldest first), and the position in the entropy stream. *)
Record Env : Type := mkEnv {
  net : list Message;
  trace : list Event;
  rng_pos : nat
}.

(** Computations that may block: [None] is a call suspended for ever on a
    receive whose message is not there. *)
Definition M (A : Type) : Type := Env -> option (A * Env).

Definition ret {A} (a : A) : M A := fun env => Some (a, env).

Definition bind {A B} (c : M A) (k : A -> M B) : M B :=
  fun env => match c env with
             | Some (a, env') => k a env'
             | None => None
             end.

Declare Scope beaver_scope.
Delimit Scope beaver_scope with beaver.
Notation "x <- c1 ;; c2" := (bind c1 (fun x => c2))
  (at level 61, c1 at next level, right associativity) : beaver_scope.
Notation "' pat <- c1 ;; c2" :=
  (bind c1 (fun x => match x with pat => c2 end))
  (at level 61, pat pattern, c1 at next level, right associativity) : beaver_scope.
Notation "c1 ;; c2" := (bind c1 (fun _ => c2))
  (at level 61, right associativity) : beaver_scope.
Open Scope beaver_scope.

Definition log_event (ev : Event) : M unit :=
  fun env => Some (tt, mkEnv (net env) (trace env ++ [ev]) (rng_pos env)).

Definition matches (lctx : Context) (src : nat) (tag : string) (m : Message) : bool :=
  (if list_eq_dec Nat.eq_dec (msg_ctx m) (ctx_id lctx) then true else false)
  && Nat.eqb (msg_src m) src && Nat.eqb (msg_dst m) (Rank lctx)
  && String.eqb (msg_tag m) tag.

Fixpoint take_message (P : Message -> bool) (l : list Message)
  : option (Message * list Message) :=
  match l with
  | [] => None
  | m :: l' =>
      if P m then Some (m, l')
      else match take_message P l' with
           | Some (x, r) => Some (x, m :: r)
           | None => None
           end
  end.

(** Modelled from the spec: "send(dest, payload, tag)", fire-and-forget. *)
Definition SendAsync (lctx : Context) (dst : nat) (buf : Buffer) (tag : string)
  : M unit :=
  fun env =>
    let m := mkMessage (ctx_id lctx) (Rank lctx) dst tag buf in
    Some (tt, mkEnv (net env ++ [m]) (trace env ++ [EvSend m]) (rng_pos env)).

(** Modelled from the spec: "receive(tag) -> payload", blocking: the oldest
    matching message, or no progress at all. *)
Definition Recv (lctx : Context) (src : nat) (tag : string) : M Buffer :=
  fun env =>
    match take_message (matches lctx src tag) (net env) with
    | Some (m, rest) =>
        Some (msg_body m, mkEnv rest (trace env ++ [EvRecv m]) (rng_pos env))
    | None => None
    end.

Fixpoint mapM {A B} (f : A -> M B) (l : list A) : M (list B) :=
  match l with
  | [] => ret []
  | x :: l' => y <- f x ;; ys <- mapM f l' ;; ret (y :: ys)
  end.

(** Modelled from the spec: "gather(value, root, tag) -> sequence of values
    (blocking, all parties call it, only root gets all values)". *)
Definition Gather (lctx : Context) (buf : Buffer) (root : nat) (tag : string)
  : M (list Buffer) :=
  if Nat.eqb (Rank lctx) root then
    mapM (fun r => if Nat.eqb r root then ret buf else Recv lctx r tag)
         (seq 0 (WorldSize lctx))
  else
    SendAsync lctx root buf tag ;; ret [].

(** The session object: the data members of [BeaverTfpUnsafe], as the
    constructor initialises them. *)
Record BeaverTfpUnsafe : Type := mkBeaver {
  lctx_ : Context;
  seed_ : PrgSeed;
  counter_ : PrgCounter;
  seeds_ : list PrgSeed
}.

(** Executable test instances, used to evaluate the model further down. *)
Definition toy_prg (seed : PrgSeed) (counter : PrgCounter) : Z :=
  seed * 2654435761 + counter * 40503 + 12345.

Definition toy_entropy (pos : nat) : Z := 1000003 * Z.of_nat (S pos) + 17.

Definition toy_randbit (field : FieldType) (shape : Shape) : NdArrayRef :=
  mkNdArray field shape (repeat 0 (Z.to_nat (numel shape))).

Definition toy_adjust (descs : list PrgArrayDesc) (seeds : list PrgSeed) : NdArrayRef :=
  match descs with
  | [] => mkNdArray FM64 [] []
  | d :: _ => mkNdArray (desc_field d) (desc_shape d)
                (repeat 1 (Z.to_nat (numel (desc_shape d))))
  end.

Definition toy_adjust2 (descs : list PrgArrayDesc) (seeds : list PrgSeed) (bits : N)
  : NdArrayRef * NdArrayRef :=
  (toy_adjust descs seeds, toy_adjust descs seeds).

Definition env0 : Env := mkEnv [] [] 0.

(** Three parties after the seed exchange, on the test entropy. *)
Definition toy_parties : list BeaverTfpUnsafe :=
  [mkBeaver (mkContext [] 0 3 0) 3000026 0 [3000026; 2000023; 1000020];
   mkBeaver (mkContext [] 1 3 0) 2000023 0 [];
   mkBeaver (mkContext [] 2 3 0) 1000020 0 []].

Definition no_party : BeaverTfpUnsafe := mkBeaver (mkContext [] 0 0 0) 0 0 [].



(** The environment rank 0 finds when ranks 2 and 1 have spawned before
    it: their seeds in flight on the sub-context's channel. *)
Definition toy_spawn_env : Env :=
  mkEnv [mkMessage [0%nat] 2 0 "BEAVER_TFP:SYNC_SEEDS" (SerializeUint128 (toy_entropy 0));
         mkMessage [0%nat] 1 0 "BEAVER_TFP:SYNC_SEEDS" (SerializeUint128 (toy_entropy 1))]
        [] 2.

(** A permutation of four elements, held by rank 2 only. *)
Definition toy_perm_at_2 (rank : nat) : list Z :=
  if Nat.eqb rank 2 then [2; 0; 3; 1] else [].

(** The same permutation, held by rank 0 only. *)
Definition toy_perm_at_0 (rank : nat) : list Z :=
  if Nat.eqb rank 0 then [2; 0; 3; 1] else [].

Section Beaver.

#[local] Set Default Proof Using "Type".

(** The keyed pseudo-random function behind the generator: the ring
    element produced under a seed at one counter value. *)
Variable prg : PrgSeed -> PrgCounter -> Z.

Definition prg_elements (field : FieldType) (seed : PrgSeed)
    (counter : PrgCounter) (n : nat) : list Z :=
  map (fun i => prg seed ((counter + Z.of_nat i) mod uint128_modulus)
                  mod ring_modulus field)
      (seq 0 n).

(** Modelled from the spec: [prgCreateArray] of [prg_tensor.h].  A pure
    function of (seed, counter, shape, field); it consumes
    [shape.size()] counter units and yields the array, the advanced
    counter and the descriptor of the consumed range. *)
Definition prgCreateArray (field : FieldType) (shape : Shape)
    (seed : PrgSeed) (counter : PrgCounter)
    : NdArrayRef * PrgCounter * PrgArrayDesc :=
  let next := (counter + numel shape) mod uint128_modulus in
  (mkNdArray field shape (prg_elements field seed counter (Z.to_nat (numel shape))),
   next,
   mkDesc field shape seed counter next).

(** Modelled from the spec: regenerating a party's array "offline from
    the seed roster alone": same descriptor, that party's seed. *)
Definition prgReplayArray (seed : PrgSeed) (desc : PrgArrayDesc) : NdArrayRef :=
  fst (fst (prgCreateArray (desc_field desc) (desc_shape desc) seed
                           (desc_counter desc))).


(* =================================================================== *)
(** *** The trusted aggregator (correction engine) *)
(* =================================================================== *)

Definition empty_array : NdArrayRef := mkNdArray FM64 [] [].

(** Modelled from the spec: "reconstructs, for every rank in the
    SeedRoster, the exact arrays that rank generated locally" and
    combines them (sum or XOR), one result per descriptor. *)
Definition reconstruct (op : NdArrayRef -> NdArrayRef -> NdArrayRef)
    (seeds : list PrgSeed) (descs : list PrgArrayDesc) : list NdArrayRef :=
  map (fun desc => reduce_arrays op (map (fun seed => prgReplayArray seed desc) seeds))
      descs.

(** Modelled from the spec: [TrustedParty::adjustMul],
    adjustment = ideal - actual with ideal = a·b elementwise. *)
Definition adjustMul (descs : list PrgArrayDesc) (seeds : list PrgSeed) : NdArrayRef :=
  let rs := reconstruct ring_add_ seeds descs in
  ring_sub (ring_mul (nth 0 rs empty_array) (nth 1 rs empty_array))
           (nth 2 rs empty_array).

(** Modelled from the spec: [TrustedParty::adjustDot], ideal = a×b. *)
Definition adjustDot (descs : list PrgArrayDesc) (seeds : list PrgSeed)
    (m n k : Z) : NdArrayRef :=
  let rs := reconstruct ring_add_ seeds descs in
  ring_sub (ring_mmul (nth 0 rs empty_array) (nth 1 rs empty_array) m n k)
           (nth 2 rs empty_array).

(** Modelled from the spec: [TrustedParty::adjustAnd],
    adjustment = ideal xor actual with ideal = a ∧ b. *)
Definition adjustAnd (descs : list PrgArrayDesc) (seeds : list PrgSeed) : NdArrayRef :=
  let rs := reconstruct ring_xor_ seeds descs in
  ring_xor_ (ring_and (nth 0 rs empty_array) (nth 1 rs empty_array))
            (nth 2 rs empty_array).

(** Modelled from the spec: [TrustedParty::adjustTrunc],
    ideal = arithmetic-right-shift(a, bits). *)
Definition adjustTrunc (descs : list PrgArrayDesc) (seeds : list PrgSeed)
    (bits : N) : NdArrayRef :=
  let rs := reconstruct ring_add_ seeds descs in
  ring_sub (ring_arshift (nth 0 rs empty_array) bits) (nth 1 rs empty_array).

(** Modelled from the spec: [TrustedParty::adjustPerm],
    ideal = the permutation vector applied to reconstructed a. *)
Definition adjustPerm (descs : list PrgArrayDesc) (seeds : list PrgSeed)
    (perm_vec : list Z) : NdArrayRef :=
  let rs := reconstruct ring_add_ seeds descs in
  ring_sub (applyPerm (nth 0 rs empty_array) perm_vec) (nth 1 rs empty_array).

(** The aggregator's own source of random bits (one array of 0/1 ring
    elements per request). *)
Variable ring_randbit : FieldType -> Shape -> NdArrayRef.

(** Modelled from the spec: [TrustedParty::adjustRandBit], ideal = "a
    uniformly random single bit embedded in the ring". *)
Definition adjustRandBit (descs : list PrgArrayDesc) (seeds : list PrgSeed)
    : NdArrayRef :=
  let rs := reconstruct ring_add_ seeds descs in
  let d := nth 0 descs (mkDesc FM64 [] 0 0 0) in
  ring_sub (ring_randbit (desc_field d) (desc_shape d)) (nth 0 rs empty_array).

(** [TrustedParty::adjustTruncPr] and [TrustedParty::adjustEqz]: their
    rounding and zero-test encodings are fixed by another layer; nothing
    below depends on what they return. *)
Variable adjustTruncPr :
  list PrgArrayDesc -> list PrgSeed -> N -> NdArrayRef * NdArrayRef.
Variable adjustEqz : list PrgArrayDesc -> list PrgSeed -> NdArrayRef.

(* =================================================================== *)
(** *** The session object *)
(* =================================================================== *)

(** Modelled from the spec: the Random Source, "a cryptographically
    secure seed generator producing uniformly random 128-bit values", as
    the stream of values that successive calls of [RandSeed] return. *)
Variable entropy : nat -> Z.

Definition RandSeed : M PrgSeed :=
  fun env => Some (entropy (rng_pos env) mod uint128_modulus,
                   mkEnv (net env) (trace env) (S (rng_pos env))).

(** [prgCreateArray(field, shape, seed_, &counter_, &desc)] on a session:
    the draw is recorded in the trace and [counter_] is advanced. *)
Definition draw (field : FieldType) (shape : Shape) (self : BeaverTfpUnsafe)
  : M (NdArrayRef * PrgArrayDesc * BeaverTfpUnsafe) :=
  let '(arr, next, desc) := prgCreateArray field shape (seed_ self) (counter_ self) in
  log_event (EvDraw desc) ;;
  ret (arr, desc, mkBeaver (lctx_ self) (seed_ self) next (seeds_ self)).

Definition kSyncSeeds : string := "BEAVER_TFP:SYNC_SEEDS".
Definition kTag : string := "BEAVER_TFP:PERM".

(** The constructor. *)
Definition BeaverTfpUnsafe_new (lctx : Context) : M BeaverTfpUnsafe :=
  seed <- RandSeed ;;
  let buf := SerializeUint128 seed in
  all_bufs <- Gather lctx buf 0 kSyncSeeds ;;
  let seeds :=
    if Nat.eqb (Rank lctx) 0 then
      fold_left (fun seeds rank =>
                   seeds ++ [DeserializeUint128 (nth rank all_bufs [])])
                (seq 0 (WorldSize lctx)) []
    else [] in
  ret (mkBeaver lctx seed 0 seeds).

Definition Mul (self : BeaverTfpUnsafe) (field : FieldType) (shape : Shape)
  : M (Triple * BeaverTfpUnsafe) :=
  '(a, d0, self) <- draw field shape self ;;
  '(b, d1, self) <- draw field shape self ;;
  '(c, d2, self) <- draw field shape self ;;
  let descs := [d0; d1; d2] in
  let c := if Nat.eqb (Rank (lctx_ self)) 0
           then ring_add_ c (adjustMul descs (seeds_ self)) else c in
  ret ((a, b, c), self).

Definition Dot (self : BeaverTfpUnsafe) (field : FieldType) (m n k : Z)
  : M (Triple * BeaverTfpUnsafe) :=
  '(a, d0, self) <- draw field [m; k] self ;;
  '(b, d1, self) <- draw field [k; n] self ;;
  '(c, d2, self) <- draw field [m; n] self ;;
  let descs := [d0; d1; d2] in
  let c := if Nat.eqb (Rank (lctx_ self)) 0
           then ring_add_ c (adjustDot descs (seeds_ self) m n k) else c in
  ret ((a, b, c), self).

Definition And (self : BeaverTfpUnsafe) (field : FieldType) (shape : Shape)
  : M (Triple * BeaverTfpUnsafe) :=
  '(a, d0, self) <- draw field shape self ;;
  '(b, d1, self) <- draw field shape self ;;
  '(c, d2, self) <- draw field shape self ;;
  let descs := [d0; d1; d2] in
  let c := if Nat.eqb (Rank (lctx_ self)) 0
           then ring_xor_ c (adjustAnd descs (seeds_ self)) else c in
  ret ((a, b, c), self).

Definition Trunc (self : BeaverTfpUnsafe) (field : FieldType) (shape : Shape)
    (bits : N) : M (Pair * BeaverTfpUnsafe) :=
  '(a, d0, self) <- draw field shape self ;;
  '(b, d1, self) <- draw field shape self ;;
  let descs := [d0; d1] in
  let b := if Nat.eqb (Rank (lctx_ self)) 0
           then ring_add_ b (adjustTrunc descs (seeds_ self) bits) else b in
  ret ((a, b), self).

Definition TruncPr (self : BeaverTfpUnsafe) (field : FieldType) (shape : Shape)
    (bits : N) : M (Triple * BeaverTfpUnsafe) :=
  '(r, d0, self) <- draw field shape self ;;
  '(rc, d1, self) <- draw field shape self ;;
  '(rb, d2, self) <- draw field shape self ;;
  let descs := [d0; d1; d2] in
  let '(rc, rb) :=
    if Nat.eqb (Rank (lctx_ self)) 0 then
      let adjusts := adjustTruncPr descs (seeds_ self) bits in
      (ring_add_ rc (fst adjusts), ring_add_ rb (snd adjusts))
    else (rc, rb) in
  ret ((r, rc, rb), self).

Definition RandBit (self : BeaverTfpUnsafe) (field : FieldType) (shape : Shape)
  : M (NdArrayRef * BeaverTfpUnsafe) :=
  '(a, d0, self) <- draw field shape self ;;
  let descs := [d0] in
  let a := if Nat.eqb (Rank (lctx_ self)) 0
           then ring_add_ a (adjustRandBit descs (seeds_ self)) else a in
  ret (a, self).

Definition PermPair (self : BeaverTfpUnsafe) (field : FieldType) (shape : Shape)
    (perm_rank : nat) (perm_vec : list Z) : M (Pair * BeaverTfpUnsafe) :=
  '(a, d0, self) <- draw field shape self ;;
  '(b, d1, self) <- draw field shape self ;;
  let descs := [d0; d1] in
  b <- (if Nat.eqb (Rank (lctx_ self)) 0 then
          if negb (Nat.eqb perm_rank (Rank (lctx_ self))) then
            pv_buf <- Recv (lctx_ self) perm_rank kTag ;;
            ret (ring_add_ b (adjustPerm descs (seeds_ self) (MakeSpan_int64 pv_buf)))
          else
            ret (ring_add_ b (adjustPerm descs (seeds_ self) perm_vec))
        else if Nat.eqb perm_rank (Rank (lctx_ self)) then
          SendAsync (lctx_ self) 0%nat (Buffer_of_int64s perm_vec) kTag ;;
          ret b
        else ret b) ;;
  ret ((a, b), self).

(** [Spawn]: the child is built by the constructor over
    [lctx_->Spawn()].  Returns (child, this). *)
Definition Spawn (self : BeaverTfpUnsafe) : M (BeaverTfpUnsafe * BeaverTfpUnsafe) :=
  let '(sub, lctx) := Context_Spawn (lctx_ self) in
  child <- BeaverTfpUnsafe_new sub ;;
  ret (child, mkBeaver lctx (seed_ self) (counter_ self) (seeds_ self)).

Definition Eqz (self : BeaverTfpUnsafe) (field : FieldType) (shape : Shape)
  : M (Pair * BeaverTfpUnsafe) :=
  '(a, d0, self) <- draw field shape self ;;
  '(b, d1, self) <- draw field shape self ;;
  let descs := [d0; d1] in
  let b := if Nat.eqb (Rank (lctx_ self)) 0
           then ring_xor_ b (adjustEqz descs (seeds_ self)) else b in
  ret ((a, b), self).

(* =================================================================== *)
(** *** Calls, sequences of calls, and the parties run together *)
(* =================================================================== *)

(** One call on the public interface, with its arguments. *)
Inductive Call : Type :=
| CallMul (field : FieldType) (shape : Shape)
| CallDot (field : FieldType) (m n k : Z)
| CallAnd (field : FieldType) (shape : Shape)
| CallTrunc (field : FieldType) (shape : Shape) (bits : N)
| CallTruncPr (field : FieldType) (shape : Shape) (bits : N)
| CallRandBit (field : FieldType) (shape : Shape)
| CallPermPair (field : FieldType) (shape : Shape) (perm_rank : nat) (perm_vec : list Z)
| CallEqz (field : FieldType) (shape : Shape).

Definition of_triple (r : Triple * BeaverTfpUnsafe) : list NdArrayRef * BeaverTfpUnsafe :=
  let '((a, b, c), self) := r in ([a; b; c], self).

Definition of_pair (r : Pair * BeaverTfpUnsafe) : list NdArrayRef * BeaverTfpUnsafe :=
  let '((a, b), self) := r in ([a; b], self).

(** Dispatch of a call to the method; the returned shares as a list. *)
Definition exec (self : BeaverTfpUnsafe) (call : Call)
  : M (list NdArrayRef * BeaverTfpUnsafe) :=
  match call with
  | CallMul field shape => r <- Mul self field shape ;; ret (of_triple r)
  | CallDot field m n k => r <- Dot self field m n k ;; ret (of_triple r)
  | CallAnd field shape => r <- And self field shape ;; ret (of_triple r)
  | CallTrunc field shape bits => r <- Trunc self field shape bits ;; ret (of_pair r)
  | CallTruncPr field shape bits => r <- TruncPr self field shape bits ;; ret (of_triple r)
  | CallRandBit field shape =>
      r <- RandBit self field shape ;; ret ([fst r], snd r)
  | CallPermPair field shape perm_rank perm_vec =>
      r <- PermPair self field shape perm_rank perm_vec ;; ret (of_pair r)
  | CallEqz field shape => r <- Eqz self field shape ;; ret (of_pair r)
  end.

(** The arrays a call draws from the generator, in order, with no
    correction: what a party gets from [prgCreateArray] alone. *)
Definition call_shapes (call : Call) : FieldType * list Shape :=
  match call with
  | CallMul field shape => (field, [shape; shape; shape])
  | CallDot field m n k => (field, [[m; k]; [k; n]; [m; n]])
  | CallAnd field shape => (field, [shape; shape; shape])
  | CallTrunc field shape _ => (field, [shape; shape])
  | CallTruncPr field shape _ => (field, [shape; shape; shape])
  | CallRandBit field shape => (field, [shape])
  | CallPermPair field shape _ _ => (field, [shape; shape])
  | CallEqz field shape => (field, [shape; shape])
  end.

Fixpoint generated (field : FieldType) (shapes : list Shape) (seed : PrgSeed)
    (counter : PrgCounter) : list (NdArrayRef * PrgArrayDesc) * PrgCounter :=
  match shapes with
  | [] => ([], counter)
  | shape :: rest =>
      let '(arr, next, desc) := prgCreateArray field shape seed counter in
      let '(more, final) := generated field rest seed next in
      ((arr, desc) :: more, final)
  end.

(** A sequence of calls on one session. *)
Fixpoint exec_all (self : BeaverTfpUnsafe) (calls : list Call)
  : M (list (list NdArrayRef) * BeaverTfpUnsafe) :=
  match calls with
  | [] => ret ([], self)
  | call :: rest =>
      '(out, self) <- exec self call ;;
      '(outs, self) <- exec_all self rest ;;
      ret (out :: outs, self)
  end.

(** All parties make the same call: the parties of higher rank run
    first, rank 0 (the head of the list) last, so that whatever rank 0
    waits for has been sent.  Results are listed by rank. *)
Fixpoint run_parties {A B} (f : A -> M B) (parties : list A) : M (list B) :=
  match parties with
  | [] => ret []
  | p :: rest => rs <- run_parties f rest ;; r <- f p ;; ret (r :: rs)
  end.

(** A protocol run: the parties make the same calls, one after the other. *)
Fixpoint run_calls (parties : list BeaverTfpUnsafe) (calls : list Call)
  : M (list BeaverTfpUnsafe) :=
  match calls with
  | [] => ret parties
  | call :: rest =>
      outs <- run_parties (fun p => exec p call) parties ;;
      run_calls (map snd outs) rest
  end.

(** The link contexts of a world of [n] parties, by rank. *)
Definition world (id : list nat) (n : nat) : list Context :=
  map (fun r => mkContext id r n 0) (seq 0 n).

(** Summing shares across the parties, modulo the ring. *)
Definition ring_sum (shares : list NdArrayRef) : NdArrayRef :=
  reduce_arrays ring_add_ shares.

Definition triple_A (r : Triple * BeaverTfpUnsafe) : NdArrayRef := fst (fst (fst r)).
Definition triple_B (r : Triple * BeaverTfpUnsafe) : NdArrayRef := snd (fst (fst r)).
Definition triple_C (r : Triple * BeaverTfpUnsafe) : NdArrayRef := snd (fst r).
Definition pair_A (r : Pair * BeaverTfpUnsafe) : NdArrayRef := fst (fst r).
Definition pair_B (r : Pair * BeaverTfpUnsafe) : NdArrayRef := snd (fst r).

(** The parties of one protocol run, listed by rank: party [r] has rank
    [r], everybody is on the same channel and has made the same calls so
    far (the counters agree), and rank 0 holds everyone's seed. *)
Definition in_lockstep (parties : list BeaverTfpUnsafe) : Prop :=
  match parties with
  | [] => False
  | p0 :: _ =>
      seeds_ p0 = map seed_ parties /\
      forall r p, nth_error parties r = Some p ->
        Rank (lctx_ p) = r /\ counter_ p = counter_ p0
        /\ ctx_id (lctx_ p) = ctx_id (lctx_ p0)
  end.

(** The generator draws among some events, oldest first. *)
Fixpoint draws_of (evs : list Event) : list PrgArrayDesc :=
  match evs with
  | [] => []
  | EvDraw desc :: rest => desc :: draws_of rest
  | _ :: rest => draws_of rest
  end.

(** Shapes of positive extents only, as the generator expects them. *)
Definition positive_shape (shape : Shape) : Prop := Forall (fun d => 0 < d) shape.

Definition positive_call (call : Call) : Prop :=
  Forall positive_shape (snd (call_shapes call)).

(** Counter units a call consumes, and a sequence of calls. *)
Definition call_units (call : Call) : Z := zsum (map numel (snd (call_shapes call))).

Definition calls_units (calls : list Call) : Z := zsum (map call_units calls).

(** Descriptors whose ranges follow one another from [c] to [c'], none
    of them empty. *)
Fixpoint chained (c : PrgCounter) (descs : list PrgArrayDesc) (c' : PrgCounter) : Prop :=
  match descs with
  | [] => c = c'
  | d :: rest =>
      desc_counter d = c /\ c < desc_counter_end d
      /\ chained (desc_counter_end d) rest c'
  end.

(** The value [RandSeed] returns at a position of the entropy stream. *)
Definition sampled (pos : nat) : PrgSeed := entropy pos mod uint128_modulus.

(** The message by which a party hands its seed to rank 0. *)
Definition sync_message (p : BeaverTfpUnsafe) : Message :=
  mkMessage (ctx_id (lctx_ p)) (Rank (lctx_ p)) 0 kSyncSeeds (SerializeUint128 (seed_ p)).

(** The sessions that the parties behind rank 0 end up with when they are
    constructed from position [pos] of the entropy stream on (the last
    one first): no roster. *)
Fixpoint constructed_rest (ctxs : list Context) (pos : nat) : list BeaverTfpUnsafe :=
  match ctxs with
  | [] => []
  | lctx :: rest =>
      mkBeaver lctx (sampled (pos + List.length rest)) 0 []
      :: constructed_rest rest pos
  end.

(** Link contexts of one channel, listed by rank, the first knowing how
    many they are. *)
Definition well_ranked (ctxs : list Context) : Prop :=
  match ctxs with
  | [] => False
  | lctx0 :: _ =>
      WorldSize lctx0 = List.length ctxs /\
      forall r lctx, nth_error ctxs r = Some lctx ->
        Rank lctx = r /\ ctx_id lctx = ctx_id lctx0
  end.

(** An event that is traffic on the channel of [lctx] under [tag]. *)
Definition on_channel (lctx : Context) (tag : string) (ev : Event) : Prop :=
  match ev with
  | EvDraw _ => False
  | EvSend m | EvRecv m => msg_ctx m = ctx_id lctx /\ msg_tag m = tag
  end.

(** The message by which the owner of a permutation hands it to rank 0. *)
Definition perm_message (p : BeaverTfpUnsafe) (perm_vec : list Z) : Message :=
  mkMessage (ctx_id (lctx_ p)) (Rank (lctx_ p)) 0 kTag (Buffer_of_int64s perm_vec).

(** A vector of indices into an array of the given shape, one per element. *)
Definition valid_perm_vec (shape : Shape) (perm_vec : list Z) : Prop :=
  List.length perm_vec = Z.to_nat (numel shape)
  /\ Forall (fun v => 0 <= v < numel shape) perm_vec.

(** The sub-context a session spawns its child on, and the session as
    Spawn leaves it. *)
Definition spawned_ctx (p : BeaverTfpUnsafe) : Context := fst (Context_Spawn (lctx_ p)).

Definition after_Spawn (p : BeaverTfpUnsafe) : BeaverTfpUnsafe :=
  mkBeaver (snd (Context_Spawn (lctx_ p))) (seed_ p) (counter_ p) (seeds_ p).

(** The communication among some events. *)
Definition comm_of (evs : list Event) : list Event := filter is_comm evs.

(** PermPair is the one call that may use the link. *)
Definition is_PermPair (call : Call) : bool :=
  match call with CallPermPair _ _ _ _ => true | _ => false end.

(** The positions, among the arrays a call returns, of those that rank 0
    corrects: c for Mul, Dot and And; b for Trunc, PermPair and Eqz; rc and
    rb for TruncPr; a for RandBit. *)
Definition corrected_at (call : Call) : list nat :=
  match call with
  | CallMul _ _ | CallDot _ _ _ _ | CallAnd _ _ => [2%nat]
  | CallTrunc _ _ _ | CallPermPair _ _ _ _ | CallEqz _ _ => [1%nat]
  | CallTruncPr _ _ _ => [1%nat; 2%nat]
  | CallRandBit _ _ => [0%nat]
  end.

(** Values of type [int64_t]. *)
Definition is_int64 (v : Z) : Prop := - 2 ^ 63 <= v < 2 ^ 63.

(** A call that [n] parties can complete together: the owner of a
    permutation is one of them and its vector holds [int64_t] values. *)
Definition call_ready (n : nat) (call : Call) : Prop :=
  match call with
  | CallPermPair _ _ perm_rank perm_vec => (perm_rank < n)%nat /\ Forall is_int64 perm_vec
  | _ => True
  end.

(** XOR of a list of ring elements. *)
Definition zxor (l : list Z) : Z := fold_right Z.lxor 0 l.

(** Proofs that do not concern the generator, the entropy or the
    aggregator's helpers are kept independent of them. *)
Ltac no_params :=
  try clear entropy; try clear adjustEqz; try clear adjustTruncPr;
  try clear ring_randbit; try clear prg.

(** The array a draw yields and the counter it leaves. *)
Definition drawn (field : FieldType) (shape : Shape) (seed : PrgSeed)
    (counter : PrgCounter) : NdArrayRef :=
  mkNdArray field shape (prg_elements field seed counter (Z.to_nat (numel shape))).

Definition advance (counter : PrgCounter) (shape : Shape) : PrgCounter :=
  (counter + numel shape) mod uint128_modulus.

Definition set_counter (self : BeaverTfpUnsafe) (counter : PrgCounter) : BeaverTfpUnsafe :=
  mkBeaver (lctx_ self) (seed_ self) counter (seeds_ self).

Definition add_trace (evs : list Event) (env : Env) : Env :=
  mkEnv (net env) (trace env ++ evs) (rng_pos env).

(** The descriptor a draw leaves. *)
Definition desc_at (field : FieldType) (shape : Shape) (seed : PrgSeed)
    (counter : PrgCounter) : PrgArrayDesc :=
  mkDesc field shape seed counter (advance counter shape).

(** PermPair called by every party, each with the vector it has at hand
    (only the owner's matters). *)
Definition PermPair_call (field : FieldType) (shape : Shape) (perm_rank : nat)
    (perm_vec_of : nat -> list Z) (p : BeaverTfpUnsafe) : M (Pair * BeaverTfpUnsafe) :=
  PermPair p field shape perm_rank (perm_vec_of (Rank (lctx_ p))).

(** What PermPair yields where no correction is made. *)
Definition PermPair_plain (field : FieldType) (shape : Shape) (p : BeaverTfpUnsafe)
  : Pair * BeaverTfpUnsafe :=
  (drawn field shape (seed_ p) (counter_ p),
   drawn field shape (seed_ p) (advance (counter_ p) shape),
   set_counter p (advance (advance (counter_ p) shape) shape)).

Definition is_owner (perm_rank : nat) (p : BeaverTfpUnsafe) : bool :=
  Nat.eqb perm_rank (Rank (lctx_ p)).

Definition owner_message (perm_vec_of : nat -> list Z) (p : BeaverTfpUnsafe) : Message :=
  perm_message p (perm_vec_of (Rank (lctx_ p))).

(** The events of PermPair at a party other than rank 0. *)
Definition PermPair_events (field : FieldType) (shape : Shape) (perm_rank : nat)
    (perm_vec_of : nat -> list Z) (p : BeaverTfpUnsafe) : list Event :=
  [EvDraw (desc_at field shape (seed_ p) (counter_ p));
   EvDraw (desc_at field shape (seed_ p) (advance (counter_ p) shape))]
  ++ (if is_owner perm_rank p then [EvSend (owner_message perm_vec_of p)] else []).

(** Ring elements proper: every entry reduced modulo the ring. *)
Definition reduced (x : NdArrayRef) : Prop :=
  Forall (fun v => 0 <= v < ring_modulus (nd_eltype x)) (nd_data x).

(* ===================================================================== *)
(** ** Ring arithmetic on arrays *)
(* ===================================================================== *)

Lemma ring_modulus_pos (field : FieldType) : 0 < ring_modulus field.
Proof. destruct field; reflexivity. Qed.

Lemma zip_with_length f x y :
  List.length (zip_with f x y) = Nat.min (List.length x) (List.length y).
Proof. unfold zip_with. now rewrite length_map, length_combine. Qed.

Lemma nth_zip_with f x y i :
  (i < List.length x)%nat -> (i < List.length y)%nat ->
  nth i (zip_with f x y) 0 = f (nth i x 0) (nth i y 0).
Proof.
  unfold zip_with. revert y i.
  induction x as [|a x IH]; intros [|b y] [|i] Hx Hy; simpl in *; try lia; auto.
  apply IH; lia.
Qed.

Lemma mod_cancel_correction M x t R :
  0 < M ->
  ((x + (t - (x + R) mod M) mod M) mod M + R) mod M = t mod M.
Proof.
  intros HM.
  rewrite Z.add_mod_idemp_l by lia.
  replace (x + (t - (x + R) mod M) mod M + R)
    with ((t - (x + R) mod M) mod M + (x + R)) by ring.
  rewrite Z.add_mod_idemp_l by lia.
  pose proof (Z.div_mod (x + R) M ltac:(lia)) as Hdiv.
  replace (t - (x + R) mod M + (x + R))
    with (t + ((x + R) / M) * M) by lia.
  apply Z.mod_add. lia.
Qed.

Lemma ring_add_reduced x y : reduced (ring_add_ x y).
Proof.
  unfold reduced, ring_add_, zip_with; simpl.
  apply Forall_forall. intros v Hv. apply in_map_iff in Hv.
  destruct Hv as [p [<- _]]. apply Z.mod_pos_bound, ring_modulus_pos.
Qed.

(** Accumulating the shares of the other parties into the first one:
    entry by entry, the sum modulo the ring. *)
Lemma fold_ring_add_ rest : forall x n,
  reduced x -> List.length (nd_data x) = n ->
  Forall (fun r => List.length (nd_data r) = n) rest ->
  let s := fold_left ring_add_ rest x in
  nd_eltype s = nd_eltype x /\ nd_shape s = nd_shape x /\
  List.length (nd_data s) = n /\ reduced s /\
  forall i, (i < n)%nat ->
    nth i (nd_data s) 0
    = (nth i (nd_data x) 0 + zsum (map (fun r => nth i (nd_data r) 0) rest))
        mod ring_modulus (nd_eltype x).
Proof.
  induction rest as [|r rest IH]; intros x n Hx Hn Hrest; simpl.
  - repeat split; auto. intros i Hi. rewrite Z.add_0_r.
    symmetry. apply Z.mod_small.
    unfold reduced in Hx. rewrite Forall_forall in Hx. apply Hx, nth_In. lia.
  - inversion Hrest as [|? ? Hr Hrest']; subst.
    assert (Hlen : List.length (nd_data (ring_add_ x r)) = List.length (nd_data x)).
    { simpl. rewrite zip_with_length. lia. }
    destruct (IH (ring_add_ x r) (List.length (nd_data x))
                 (ring_add_reduced x r) Hlen Hrest')
      as (He & Hs & Hl & Hred & Hnth).
    repeat split; auto.
    intros i Hi. rewrite Hnth by exact Hi. simpl.
    rewrite nth_zip_with by lia.
    rewrite Zplus_mod_idemp_l. f_equal. ring.
Qed.

(** The correction identity behind every additive operation: when rank 0
    adds (ideal - sum of what everybody drew) to its own share, the shares
    sum to the ideal value. *)
Lemma ring_sum_corrected x rest ideal :
  reduced x -> reduced ideal ->
  nd_eltype ideal = nd_eltype x -> nd_shape ideal = nd_shape x ->
  List.length (nd_data ideal) = List.length (nd_data x) ->
  Forall (fun r => List.length (nd_data r) = List.length (nd_data x)) rest ->
  ring_sum (ring_add_ x (ring_sub ideal (ring_sum (x :: rest))) :: rest) = ideal.
Proof.
  intros Hx Hid He Hsh Hlen Hrest.
  unfold ring_sum, reduce_arrays.
  set (n := List.length (nd_data x)) in *.
  destruct (fold_ring_add_ rest x n Hx eq_refl Hrest)
    as (Se & Ss & Sl & Sred & Snth).
  set (S := fold_left ring_add_ rest x) in *.
  assert (Hadj : List.length (nd_data (ring_sub ideal S)) = n).
  { simpl. rewrite zip_with_length. lia. }
  assert (Hx' : List.length (nd_data (ring_add_ x (ring_sub ideal S))) = n).
  { simpl. rewrite zip_with_length. simpl in Hadj. fold n. lia. }
  destruct (fold_ring_add_ rest _ n (ring_add_reduced x (ring_sub ideal S)) Hx' Hrest)
    as (Te & Ts & Tl & Tred & Tnth).
  set (T := fold_left ring_add_ rest (ring_add_ x (ring_sub ideal S))) in *.
  destruct T as [Tf Tshape Tdata], ideal as [If Ishape Idata]; simpl in *.
  subst Tf Tshape If Ishape. f_equal.
  apply nth_ext with (d := 0) (d' := 0); [lia|].
  intros i Hi. rewrite Tl in Hi. rewrite Tnth by exact Hi.
  rewrite nth_zip_with by (rewrite ?zip_with_length; fold n; lia).
  rewrite nth_zip_with by (fold n; lia).
  rewrite Snth by exact Hi.
  rewrite mod_cancel_correction by apply ring_modulus_pos.
  apply Z.mod_small.
  unfold reduced in Hid; simpl in Hid. rewrite Forall_forall in Hid.
  apply Hid, nth_In. lia.
Qed.

(* ===================================================================== *)
(** ** What each method computes *)
(* ===================================================================== *)

Lemma add_trace_app evs1 evs2 env :
  add_trace evs2 (add_trace evs1 env) = add_trace (evs1 ++ evs2) env.
Proof. unfold add_trace; simpl. now rewrite app_assoc. Qed.

Lemma draw_run field shape self env :
  draw field shape self env
  = Some ((drawn field shape (seed_ self) (counter_ self),
           desc_at field shape (seed_ self) (counter_ self),
           set_counter self (advance (counter_ self) shape)),
          add_trace [EvDraw (desc_at field shape (seed_ self) (counter_ self))] env).
Proof. reflexivity. Qed.

Ltac run_draws :=
  unfold bind; repeat (rewrite draw_run; cbv beta iota zeta);
  rewrite ?add_trace_app; cbn [app set_counter lctx_ seed_ counter_ seeds_ ret].

Lemma Mul_run self field shape env :
  let seed := seed_ self in
  let c0 := counter_ self in
  let c1 := advance c0 shape in
  let c2 := advance c1 shape in
  let descs := [desc_at field shape seed c0; desc_at field shape seed c1;
                desc_at field shape seed c2] in
  let c := drawn field shape seed c2 in
  Mul self field shape env
  = Some ((drawn field shape seed c0, drawn field shape seed c1,
           if Nat.eqb (Rank (lctx_ self)) 0
           then ring_add_ c (adjustMul descs (seeds_ self)) else c,
           set_counter self (advance c2 shape)),
          add_trace (map EvDraw descs) env).
Proof. intros. unfold Mul. run_draws. reflexivity. Qed.

Lemma Dot_run self field m n k env :
  let seed := seed_ self in
  let c0 := counter_ self in
  let c1 := advance c0 [m; k] in
  let c2 := advance c1 [k; n] in
  let descs := [desc_at field [m; k] seed c0; desc_at field [k; n] seed c1;
                desc_at field [m; n] seed c2] in
  let c := drawn field [m; n] seed c2 in
  Dot self field m n k env
  = Some ((drawn field [m; k] seed c0, drawn field [k; n] seed c1,
           if Nat.eqb (Rank (lctx_ self)) 0
           then ring_add_ c (adjustDot descs (seeds_ self) m n k) else c,
           set_counter self (advance c2 [m; n])),
          add_trace (map EvDraw descs) env).
Proof. intros. unfold Dot. run_draws. reflexivity. Qed.

Lemma And_run self field shape env :
  let seed := seed_ self in
  let c0 := counter_ self in
  let c1 := advance c0 shape in
  let c2 := advance c1 shape in
  let descs := [desc_at field shape seed c0; desc_at field shape seed c1;
                desc_at field shape seed c2] in
  let c := drawn field shape seed c2 in
  And self field shape env
  = Some ((drawn field shape seed c0, drawn field shape seed c1,
           if Nat.eqb (Rank (lctx_ self)) 0
           then ring_xor_ c (adjustAnd descs (seeds_ self)) else c,
           set_counter self (advance c2 shape)),
          add_trace (map EvDraw descs) env).
Proof. intros. unfold And. run_draws. reflexivity. Qed.

Lemma Trunc_run self field shape bits env :
  let seed := seed_ self in
  let c0 := counter_ self in
  let c1 := advance c0 shape in
  let descs := [desc_at field shape seed c0; desc_at field shape seed c1] in
  let b := drawn field shape seed c1 in
  Trunc self field shape bits env
  = Some ((drawn field shape seed c0,
           if Nat.eqb (Rank (lctx_ self)) 0
           then ring_add_ b (adjustTrunc descs (seeds_ self) bits) else b,
           set_counter self (advance c1 shape)),
          add_trace (map EvDraw descs) env).
Proof. intros. unfold Trunc. run_draws. reflexivity. Qed.

Lemma TruncPr_run self field shape bits env :
  let seed := seed_ self in
  let c0 := counter_ self in
  let c1 := advance c0 shape in
  let c2 := advance c1 shape in
  let descs := [desc_at field shape seed c0; desc_at field shape seed c1;
                desc_at field shape seed c2] in
  let rc := drawn field shape seed c1 in
  let rb := drawn field shape seed c2 in
  TruncPr self field shape bits env
  = Some ((drawn field shape seed c0,
           (if Nat.eqb (Rank (lctx_ self)) 0
            then ring_add_ rc (fst (adjustTruncPr descs (seeds_ self) bits)) else rc),
           (if Nat.eqb (Rank (lctx_ self)) 0
            then ring_add_ rb (snd (adjustTruncPr descs (seeds_ self) bits)) else rb),
           set_counter self (advance c2 shape)),
          add_trace (map EvDraw descs) env).
Proof.
  intros. unfold TruncPr. run_draws.
  destruct (Nat.eqb (Rank (lctx_ self)) 0); reflexivity.
Qed.

Lemma RandBit_run self field shape env :
  let seed := seed_ self in
  let c0 := counter_ self in
  let descs := [desc_at field shape seed c0] in
  let a := drawn field shape seed c0 in
  RandBit self field shape env
  = Some ((if Nat.eqb (Rank (lctx_ self)) 0
           then ring_add_ a (adjustRandBit descs (seeds_ self)) else a,
           set_counter self (advance c0 shape)),
          add_trace (map EvDraw descs) env).
Proof. intros. unfold RandBit. run_draws. reflexivity. Qed.

Lemma Eqz_run self field shape env :
  let seed := seed_ self in
  let c0 := counter_ self in
  let c1 := advance c0 shape in
  let descs := [desc_at field shape seed c0; desc_at field shape seed c1] in
  let b := drawn field shape seed c1 in
  Eqz self field shape env
  = Some ((drawn field shape seed c0,
           if Nat.eqb (Rank (lctx_ self)) 0
           then ring_xor_ b (adjustEqz descs (seeds_ self)) else b,
           set_counter self (advance c1 shape)),
          add_trace (map EvDraw descs) env).
Proof. intros. unfold Eqz. run_draws. reflexivity. Qed.

Lemma PermPair_run self field shape perm_rank perm_vec env :
  let seed := seed_ self in
  let lctx := lctx_ self in
  let c0 := counter_ self in
  let c1 := advance c0 shape in
  let d0 := desc_at field shape seed c0 in
  let d1 := desc_at field shape seed c1 in
  let a := drawn field shape seed c0 in
  let b := drawn field shape seed c1 in
  let self' := set_counter self (advance c1 shape) in
  let sent := mkMessage (ctx_id lctx) (Rank lctx) 0 kTag (Buffer_of_int64s perm_vec) in
  PermPair self field shape perm_rank perm_vec env
  = if Nat.eqb (Rank lctx) 0 then
      if negb (Nat.eqb perm_rank (Rank lctx)) then
        match take_message (matches lctx perm_rank kTag) (net env) with
        | Some (m, rest) =>
            Some ((a, ring_add_ b (adjustPerm [d0; d1] (seeds_ self)
                                     (MakeSpan_int64 (msg_body m))), self'),
                  mkEnv rest (trace env ++ [EvDraw d0; EvDraw d1; EvRecv m]) (rng_pos env))
        | None => None
        end
      else
        Some ((a, ring_add_ b (adjustPerm [d0; d1] (seeds_ self) perm_vec), self'),
              add_trace [EvDraw d0; EvDraw d1] env)
    else if Nat.eqb perm_rank (Rank lctx) then
      Some ((a, b, self'),
            mkEnv (net env ++ [sent]) (trace env ++ [EvDraw d0; EvDraw d1; EvSend sent])
                  (rng_pos env))
    else
      Some ((a, b, self'), add_trace [EvDraw d0; EvDraw d1] env).
Proof.
  intros. subst lctx. unfold PermPair. run_draws.
  destruct (Nat.eqb (Rank (lctx_ self)) 0) eqn:Hr.
  - destruct (Nat.eqb perm_rank (Rank (lctx_ self))); simpl.
    + reflexivity.
    + unfold Recv, bind; simpl.
      destruct (take_message _ (net env)) as [[m rest]|]; [|reflexivity].
      unfold ret. now rewrite <- app_assoc.
  - destruct (Nat.eqb perm_rank (Rank (lctx_ self))); simpl; [|reflexivity].
    unfold SendAsync, bind, ret; simpl. now rewrite <- app_assoc.
Qed.

(* ===================================================================== *)
(** ** The parties together *)
(* ===================================================================== *)

(** Methods that never wait: run for all parties, they yield one result
    per party and leave the events of the higher ranks first. *)
Lemma run_parties_total {A B} (f : A -> M B) (g : A -> B) (evs : A -> list Event) :
  (forall p env, f p env = Some (g p, add_trace (evs p) env)) ->
  forall parties env,
    run_parties f parties env
    = Some (map g parties, add_trace (flat_map evs (rev parties)) env).
Proof.
  intros Hf parties. induction parties as [|p rest IH]; intros env; simpl.
  - unfold ret, add_trace. destruct env; simpl. now rewrite app_nil_r.
  - unfold bind. rewrite IH, Hf. unfold ret.
    rewrite add_trace_app, flat_map_app. simpl. now rewrite app_nil_r.
Qed.

Lemma lockstep_inv p0 rest :
  in_lockstep (p0 :: rest) ->
  Rank (lctx_ p0) = 0%nat /\ seeds_ p0 = seed_ p0 :: map seed_ rest /\
  Forall (fun p => Rank (lctx_ p) <> 0%nat /\ counter_ p = counter_ p0
                   /\ ctx_id (lctx_ p) = ctx_id (lctx_ p0)) rest.
Proof.
  intros [Hseeds Hall]. split; [|split].
  - now destruct (Hall 0%nat p0 eq_refl).
  - exact Hseeds.
  - apply Forall_forall. intros p Hin.
    destruct (In_nth_error _ _ Hin) as [r Hr].
    destruct (Hall (S r) p Hr) as (H1 & H2 & H3).
    repeat split; auto. lia.
Qed.

Lemma prg_elements_length field seed counter n :
  List.length (prg_elements field seed counter n) = n.
Proof. unfold prg_elements. now rewrite length_map, length_seq. Qed.

Lemma drawn_reduced field shape seed counter :
  reduced (drawn field shape seed counter).
Proof.
  unfold reduced, drawn, prg_elements; simpl.
  apply Forall_forall. intros v Hv. apply in_map_iff in Hv.
  destruct Hv as [i [<- _]]. apply Z.mod_pos_bound, ring_modulus_pos.
Qed.

Lemma replay_is_drawn seed desc :
  prgReplayArray seed desc
  = drawn (desc_field desc) (desc_shape desc) seed (desc_counter desc).
Proof. reflexivity. Qed.

(** What the aggregator recomputes for one descriptor is the sum of what
    the parties drew: well-formed, and of the descriptor's size. *)
Lemma replay_sum_props desc seed seeds :
  let rs := reduce_arrays ring_add_
              (map (fun s => prgReplayArray s desc) (seed :: seeds)) in
  nd_eltype rs = desc_field desc /\ nd_shape rs = desc_shape desc /\
  List.length (nd_data rs) = Z.to_nat (numel (desc_shape desc)) /\ reduced rs.
Proof.
  simpl.
  destruct (fold_ring_add_ (map (fun s => prgReplayArray s desc) seeds)
              (prgReplayArray seed desc) (Z.to_nat (numel (desc_shape desc))))
    as (He & Hs & Hl & Hred & _).
  - apply drawn_reduced.
  - simpl. apply prg_elements_length.
  - apply Forall_forall. intros r Hr. apply in_map_iff in Hr.
    destruct Hr as [s [<- _]]. simpl. apply prg_elements_length.
  - repeat split; auto.
Qed.

Lemma input_shares field shape cx desc p0 rest :
  desc_field desc = field -> desc_shape desc = shape -> desc_counter desc = cx ->
  ring_sum (drawn field shape (seed_ p0) cx
            :: map (fun p => drawn field shape (seed_ p) cx) rest)
  = reduce_arrays ring_add_
      (prgReplayArray (seed_ p0) desc
       :: map (fun s => prgReplayArray s desc) (map seed_ rest)).
Proof.
  intros <- <- <-. unfold ring_sum. simpl. now rewrite map_map.
Qed.

(** The shares of a corrected output, summed over the parties. *)
Lemma corrected_shares field shape cx desc p0 rest ideal :
  desc_field desc = field -> desc_shape desc = shape -> desc_counter desc = cx ->
  reduced ideal -> nd_eltype ideal = field -> nd_shape ideal = shape ->
  List.length (nd_data ideal) = Z.to_nat (numel shape) ->
  ring_sum
    (ring_add_ (drawn field shape (seed_ p0) cx)
       (ring_sub ideal
          (reduce_arrays ring_add_
             (prgReplayArray (seed_ p0) desc
              :: map (fun s => prgReplayArray s desc) (map seed_ rest))))
     :: map (fun p => drawn field shape (seed_ p) cx) rest)
  = ideal.
Proof.
  intros Hf Hs Hc Hred He Hsh Hlen.
  rewrite <- (input_shares field shape cx desc p0 rest Hf Hs Hc).
  apply ring_sum_corrected; auto.
  - apply drawn_reduced.
  - simpl. now rewrite prg_elements_length.
  - apply Forall_forall. intros r Hr. apply in_map_iff in Hr.
    destruct Hr as [p [<- _]]. simpl. now rewrite !prg_elements_length.
Qed.

(** Shares of the parties behind rank 0: all drawn at rank 0's counter. *)
Lemma rest_shares (h : BeaverTfpUnsafe -> NdArrayRef) field shape
    (at_counter : PrgCounter -> PrgCounter) p0 rest :
  Forall (fun p => Rank (lctx_ p) <> 0%nat /\ counter_ p = counter_ p0
                   /\ ctx_id (lctx_ p) = ctx_id (lctx_ p0)) rest ->
  (forall p, Rank (lctx_ p) <> 0%nat ->
     h p = drawn field shape (seed_ p) (at_counter (counter_ p))) ->
  map h rest = map (fun p => drawn field shape (seed_ p) (at_counter (counter_ p0))) rest.
Proof.
  intros Hall Hh. apply map_ext_in. intros p Hin.
  rewrite Forall_forall in Hall. destruct (Hall p Hin) as (Hr & Hc & _).
  now rewrite Hh, Hc.
Qed.

Lemma all_shares (h : BeaverTfpUnsafe -> NdArrayRef) field shape
    (at_counter : PrgCounter -> PrgCounter) p0 rest :
  Forall (fun p => Rank (lctx_ p) <> 0%nat /\ counter_ p = counter_ p0
                   /\ ctx_id (lctx_ p) = ctx_id (lctx_ p0)) rest ->
  (forall p, h p = drawn field shape (seed_ p) (at_counter (counter_ p))) ->
  map h (p0 :: rest)
  = map (fun p => drawn field shape (seed_ p) (at_counter (counter_ p0))) (p0 :: rest).
Proof.
  intros Hall Hh. simpl. rewrite Hh. f_equal.
  apply (rest_shares h field shape at_counter p0 rest Hall). auto.
Qed.

Lemma ring_mul_reduced x y : reduced (ring_mul x y).
Proof.
  unfold reduced, ring_mul, zip_with; simpl.
  apply Forall_forall. intros v Hv. apply in_map_iff in Hv.
  destruct Hv as [p [<- _]]. apply Z.mod_pos_bound, ring_modulus_pos.
Qed.

Lemma nth_error_map_inv {A B} (f : A -> B) l r y :
  nth_error (map f l) r = Some y -> exists x, nth_error l r = Some x /\ y = f x.
Proof.
  rewrite nth_error_map. destruct (nth_error l r) as [x|]; simpl; [|discriminate].
  intros [= <-]. eauto.
Qed.

(** C1 (Mul): whatever the ring width, the shape and the seeds, the C
    shares returned to the parties sum, modulo the ring, to the elementwise
    product of the summed A shares and the summed B shares; rank 0's C is
    its drawn array plus the trusted party's adjustment, every other C is
    the drawn array as it is. *)
Theorem Mul_reconstructs_product field shape parties env :
  in_lockstep parties ->
  exists outs env',
    run_parties (fun p => Mul p field shape) parties env = Some (outs, env')
    /\ ring_sum (map triple_C outs)
       = ring_mul (ring_sum (map triple_A outs)) (ring_sum (map triple_B outs))
    /\ forall r p out,
         nth_error parties r = Some p -> nth_error outs r = Some out ->
         let c1 := advance (counter_ p) shape in
         let c2 := advance c1 shape in
         let descs := [desc_at field shape (seed_ p) (counter_ p);
                       desc_at field shape (seed_ p) c1;
                       desc_at field shape (seed_ p) c2] in
         triple_C out
         = if Nat.eqb r 0
           then ring_add_ (drawn field shape (seed_ p) c2) (adjustMul descs (seeds_ p))
           else drawn field shape (seed_ p) c2.
Proof.
  intros Hlock. destruct parties as [|p0 rest]; [contradiction|].
  pose proof Hlock as [_ Hranks].
  destruct (lockstep_inv p0 rest Hlock) as (Hr0 & Hseeds & Hrest).
  eexists _, _. split; [|split].
  - apply (run_parties_total _ _ _ (fun p env => Mul_run p field shape env)).
  - rewrite !map_map.
    rewrite (all_shares (fun p => triple_A _) field shape (fun c => c) p0 rest Hrest)
      by reflexivity.
    rewrite (all_shares (fun p => triple_B _) field shape
               (fun c => advance c shape) p0 rest Hrest) by reflexivity.
    cbn [map]. unfold triple_C at 1; cbn [fst snd].
    rewrite Hr0; cbn [Nat.eqb].
    rewrite (rest_shares (fun p => triple_C _) field shape
               (fun c => advance (advance c shape) shape) p0 rest Hrest).
    2:{ intros p Hp. unfold triple_C; simpl.
        apply Nat.eqb_neq in Hp. now rewrite Hp. }
    unfold adjustMul. rewrite Hseeds. cbn [reconstruct map nth].
    set (d0 := desc_at field shape (seed_ p0) (counter_ p0)).
    set (d1 := desc_at field shape (seed_ p0) (advance (counter_ p0) shape)).
    set (d2 := desc_at field shape (seed_ p0) (advance (advance (counter_ p0) shape) shape)).
    rewrite (input_shares field shape _ d0 p0 rest) by reflexivity.
    rewrite (input_shares field shape _ d1 p0 rest) by reflexivity.
    destruct (replay_sum_props d0 (seed_ p0) (map seed_ rest)) as (E0 & S0 & L0 & R0).
    destruct (replay_sum_props d1 (seed_ p0) (map seed_ rest)) as (E1 & S1 & L1 & R1).
    cbn [map] in E0, S0, L0, E1, L1.
    apply (corrected_shares field shape _ d2 p0 rest); try reflexivity.
    + apply ring_mul_reduced.
    + exact E0.
    + exact S0.
    + cbn [ring_mul nd_data]. rewrite zip_with_length, L0, L1. simpl. lia.
  - intros r p out Hp Hout.
    apply nth_error_map_inv in Hout. destruct Hout as (p' & Hp' & ->).
    rewrite Hp in Hp'. injection Hp' as <-.
    destruct (Hranks r p Hp) as (Hr & _).
    unfold triple_C; simpl. now rewrite Hr.
Qed.

Lemma flat_map_length_const {A B} (f : A -> list B) (l : list A) (c : nat) :
  (forall x, List.length (f x) = c) ->
  List.length (flat_map f l) = (List.length l * c)%nat.
Proof.
  intros Hf. induction l as [|x l IH]; simpl; [reflexivity|].
  now rewrite length_app, Hf, IH.
Qed.




Lemma ring_arshift_reduced x bits : reduced (ring_arshift x bits).
Proof.
  unfold reduced, ring_arshift; cbn [nd_data nd_eltype].
  apply Forall_forall. intros v Hv. apply in_map_iff in Hv.
  destruct Hv as (a & <- & _). apply Z.mod_pos_bound, ring_modulus_pos.
Qed.

(** C9 (Trunc): the B shares sum, modulo the ring, to the arithmetic right
    shift by [bits] of the sum of the A shares (the shift is taken of the
    sum, not share by share); the correction enters B by ring addition and
    at rank 0 only. *)
Theorem Trunc_reconstructs_shift field shape bits parties env :
  in_lockstep parties ->
  exists outs env',
    run_parties (fun p => Trunc p field shape bits) parties env = Some (outs, env')
    /\ ring_sum (map pair_B outs) = ring_arshift (ring_sum (map pair_A outs)) bits
    /\ forall r p out,
         nth_error parties r = Some p -> nth_error outs r = Some out ->
         let c1 := advance (counter_ p) shape in
         let descs := [desc_at field shape (seed_ p) (counter_ p);
                       desc_at field shape (seed_ p) c1] in
         pair_B out
         = if Nat.eqb r 0
           then ring_add_ (drawn field shape (seed_ p) c1)
                          (adjustTrunc descs (seeds_ p) bits)
           else drawn field shape (seed_ p) c1.
Proof.
  intros Hlock. destruct parties as [|p0 rest]; [contradiction|].
  pose proof Hlock as [_ Hranks].
  destruct (lockstep_inv p0 rest Hlock) as (Hr0 & Hseeds & Hrest).
  eexists _, _. split; [|split].
  - apply (run_parties_total _ _ _ (fun p env => Trunc_run p field shape bits env)).
  - rewrite !map_map.
    rewrite (all_shares (fun p => pair_A _) field shape (fun c => c) p0 rest Hrest)
      by reflexivity.
    cbn [map]. unfold pair_B at 1; cbn [fst snd].
    rewrite Hr0; cbn [Nat.eqb].
    rewrite (rest_shares (fun p => pair_B _) field shape
               (fun c => advance c shape) p0 rest Hrest).
    2:{ intros p Hp. unfold pair_B; simpl.
        apply Nat.eqb_neq in Hp. now rewrite Hp. }
    unfold adjustTrunc. rewrite Hseeds. cbn [reconstruct map nth].
    set (d0 := desc_at field shape (seed_ p0) (counter_ p0)).
    set (d1 := desc_at field shape (seed_ p0) (advance (counter_ p0) shape)).
    rewrite (input_shares field shape _ d0 p0 rest) by reflexivity.
    destruct (replay_sum_props d0 (seed_ p0) (map seed_ rest)) as (E0 & S0 & L0 & R0).
    cbn [map] in E0, S0, L0.
    apply (corrected_shares field shape _ d1 p0 rest); try reflexivity.
    + apply ring_arshift_reduced.
    + exact E0.
    + exact S0.
    + cbn [ring_arshift nd_data]. now rewrite length_map, L0.
  - intros r p out Hp Hout.
    apply nth_error_map_inv in Hout. destruct Hout as (p' & Hp' & ->).
    rewrite Hp in Hp'. injection Hp' as <-.
    destruct (Hranks r p Hp) as (Hr & _).
    unfold pair_B; simpl. now rewrite Hr.
Qed.

(** C5: for every operation, a party whose rank is not 0 returns exactly
    the arrays it drew from the share generator, in order and with no
    correction applied (so only rank 0 ever changes an array after it was
    generated); the call never waits and leaves the counter where the
    draws left it. *)
Theorem nonzero_rank_returns_generated self call env :
  Rank (lctx_ self) <> 0%nat ->
  let g := generated (fst (call_shapes call)) (snd (call_shapes call))
                     (seed_ self) (counter_ self) in
  exists env',
    exec self call env = Some ((map fst (fst g), set_counter self (snd g)), env').
Proof.
  intros Hrank g. subst g. apply Nat.eqb_neq in Hrank.
  destruct call; cbn [exec call_shapes fst snd]; unfold bind.
  - rewrite Mul_run, Hrank. eexists; reflexivity.
  - rewrite Dot_run, Hrank. eexists; reflexivity.
  - rewrite And_run, Hrank. eexists; reflexivity.
  - rewrite Trunc_run, Hrank. eexists; reflexivity.
  - rewrite TruncPr_run, Hrank. eexists; reflexivity.
  - rewrite RandBit_run, Hrank. eexists; reflexivity.
  - rewrite PermPair_run, Hrank.
    destruct (Nat.eqb perm_rank (Rank (lctx_ self))); eexists; reflexivity.
  - rewrite Eqz_run, Hrank. eexists; reflexivity.
Qed.

(** C3, as the code has it: at rank 0, Eqz folds its correction into b
    with XOR, whereas RandBit folds its correction into a with ring
    addition. *)
Theorem Eqz_corrects_by_xor_RandBit_by_add self field shape env :
  Rank (lctx_ self) = 0%nat ->
  let seed := seed_ self in
  let c0 := counter_ self in
  let c1 := advance c0 shape in
  (exists self' env',
     RandBit self field shape env
     = Some ((ring_add_ (drawn field shape seed c0)
                (adjustRandBit [desc_at field shape seed c0] (seeds_ self)),
              self'), env'))
  /\ (exists a self' env',
        Eqz self field shape env
        = Some ((a, ring_xor_ (drawn field shape seed c1)
                      (adjustEqz [desc_at field shape seed c0;
                                  desc_at field shape seed c1] (seeds_ self)),
                 self'), env')).
Proof.
  intros Hrank seed c0 c1. split.
  - rewrite RandBit_run, Hrank. eexists _, _. reflexivity.
  - rewrite Eqz_run, Hrank. eexists _, _, _. reflexivity.
Qed.

(* ===================================================================== *)
(** ** The counter *)
(* ===================================================================== *)

Lemma draws_of_app evs1 evs2 : draws_of (evs1 ++ evs2) = draws_of evs1 ++ draws_of evs2.
Proof.
  induction evs1 as [|[d|m|m] evs1 IH]; simpl; auto. now rewrite IH.
Qed.

Lemma draws_of_EvDraw descs : draws_of (map EvDraw descs) = descs.
Proof. induction descs as [|d descs IH]; simpl; auto. now rewrite IH. Qed.

Lemma trace_add_trace evs env : trace (add_trace evs env) = trace env ++ evs.
Proof. reflexivity. Qed.

(** What a call that returns has done to the session and to the trace:
    the counter is where the draws left it, nothing else in the session
    changed, and the draws are those of the generator, in order. *)
Lemma exec_effect self call env out self' env' :
  exec self call env = Some ((out, self'), env') ->
  let g := generated (fst (call_shapes call)) (snd (call_shapes call))
                     (seed_ self) (counter_ self) in
  self' = set_counter self (snd g)
  /\ exists evs, trace env' = trace env ++ evs /\ draws_of evs = map snd (fst g).
Proof.
  destruct call; cbn [exec call_shapes fst snd]; unfold bind.
  - rewrite Mul_run. intros [= <- <- <-]. split; [reflexivity|].
    eexists. split; reflexivity.
  - rewrite Dot_run. intros [= <- <- <-]. split; [reflexivity|].
    eexists. split; reflexivity.
  - rewrite And_run. intros [= <- <- <-]. split; [reflexivity|].
    eexists. split; reflexivity.
  - rewrite Trunc_run. intros [= <- <- <-]. split; [reflexivity|].
    eexists. split; reflexivity.
  - rewrite TruncPr_run. intros [= <- <- <-]. split; [reflexivity|].
    eexists. split; reflexivity.
  - rewrite RandBit_run. intros [= <- <- <-]. split; [reflexivity|].
    eexists. split; reflexivity.
  - rewrite PermPair_run.
    destruct (Nat.eqb (Rank (lctx_ self)) 0);
      [destruct (negb (Nat.eqb perm_rank (Rank (lctx_ self))));
       [destruct (take_message _ (net env)) as [[m rest]|]; [|discriminate]|]
      |destruct (Nat.eqb perm_rank (Rank (lctx_ self)))];
      intros [= <- <- <-]; (split; [reflexivity|]);
      eexists; (split; [reflexivity|]); reflexivity.
  - rewrite Eqz_run. intros [= <- <- <-]. split; [reflexivity|].
    eexists. split; reflexivity.
Qed.

Lemma numel_positive shape : positive_shape shape -> 0 < numel shape.
Proof.
  induction 1 as [|d shape Hd _ IH]; simpl; [lia|]. now apply Z.mul_pos_pos.
Qed.

Lemma shapes_units_nonneg shapes :
  Forall positive_shape shapes -> 0 <= zsum (map numel shapes).
Proof.
  induction 1 as [|x l Hx _ IH]; simpl; [lia|].
  pose proof (numel_positive x Hx). lia.
Qed.

Lemma call_units_positive call : positive_call call -> 0 < call_units call.
Proof.
  unfold positive_call, call_units. intros Hpos.
  destruct call; simpl in *;
    inversion Hpos as [|x l Hx Hl]; subst;
    pose proof (numel_positive _ Hx); pose proof (shapes_units_nonneg _ Hl);
    simpl in *; lia.
Qed.

Lemma calls_units_nonneg calls : Forall positive_call calls -> 0 <= calls_units calls.
Proof.
  unfold calls_units. induction 1 as [|x l Hx _ IH]; simpl; [lia|].
  pose proof (call_units_positive x Hx). lia.
Qed.

Lemma generated_seed field shapes seed counter :
  Forall (fun d => desc_seed d = seed)
         (map snd (fst (generated field shapes seed counter))).
Proof.
  revert counter. induction shapes as [|shape shapes IH]; intros counter; simpl.
  - constructor.
  - specialize (IH (advance counter shape)). unfold advance in IH.
    destruct (generated field shapes seed _) as [more final]. simpl.
    constructor; auto.
Qed.

(** Below the wrap-around, the draws of one call consume consecutive,
    non-empty ranges. *)
Lemma generated_chained field shapes seed counter :
  Forall positive_shape shapes -> 0 <= counter ->
  counter + zsum (map numel shapes) < uint128_modulus ->
  let g := generated field shapes seed counter in
  chained counter (map snd (fst g)) (snd g)
  /\ snd g = counter + zsum (map numel shapes).
Proof.
  revert counter. induction shapes as [|shape shapes IH]; intros counter Hpos Hc Hbound.
  - simpl. split; [reflexivity|lia].
  - inversion Hpos as [|? ? Hshape Hshapes]; subst.
    pose proof (numel_positive shape Hshape) as Hn.
    pose proof (shapes_units_nonneg shapes Hshapes) as Hsum.
    simpl in Hbound.
    assert (Hadv : (counter + numel shape) mod uint128_modulus = counter + numel shape)
      by (apply Z.mod_small; lia).
    simpl. rewrite Hadv.
    specialize (IH (counter + numel shape) Hshapes ltac:(lia) ltac:(lia)).
    simpl in IH. destruct (generated field shapes seed _) as [more final].
    simpl in *. destruct IH as [IH1 IH2]. repeat split; auto; lia.
Qed.

Lemma chained_app c1 ds1 c2 ds2 c3 :
  chained c1 ds1 c2 -> chained c2 ds2 c3 -> chained c1 (ds1 ++ ds2) c3.
Proof.
  revert c1. induction ds1 as [|d ds1 IH]; intros c1; simpl.
  - now intros ->.
  - intros (H1 & H2 & H3) H. repeat split; auto.
Qed.

Lemma chained_le c ds c' : chained c ds c' -> c <= c'.
Proof.
  revert c. induction ds as [|d ds IH]; intros c; simpl.
  - intros ->; lia.
  - intros (H1 & H2 & H3). specialize (IH _ H3). lia.
Qed.

Lemma chained_bounds c ds c' d :
  chained c ds c' -> In d ds ->
  c <= desc_counter d /\ desc_counter d < desc_counter_end d /\ desc_counter_end d <= c'.
Proof. no_params.
  revert c. induction ds as [|d0 ds IH]; intros c; simpl; [tauto|].
  intros (H1 & H2 & H3) [->|Hin].
  - pose proof (chained_le _ _ _ H3). lia.
  - specialize (IH _ H3 Hin). lia.
Qed.

(** Consecutive ranges are ordered, hence pairwise disjoint. *)
Lemma chained_ordered c ds c' : chained c ds c' ->
  forall i j d d', (i < j)%nat ->
    nth_error ds i = Some d -> nth_error ds j = Some d' ->
    desc_counter d < desc_counter_end d
    /\ desc_counter_end d <= desc_counter d'
    /\ desc_counter d' < desc_counter_end d'.
Proof.
  revert c. induction ds as [|d0 ds IH]; intros c Hch i j d d' Hij Hi Hj.
  - destruct i; discriminate.
  - destruct Hch as (H1 & H2 & H3). destruct j as [|j]; [lia|].
    simpl in Hj. destruct i as [|i].
    + injection Hi as <-.
      destruct (chained_bounds _ _ _ d' H3 (nth_error_In _ _ Hj)). lia.
    + simpl in Hi. apply (IH _ H3 i j); auto. lia.
Qed.

Lemma exec_all_chained calls : forall self env outs self' env',
  exec_all self calls env = Some ((outs, self'), env') ->
  Forall positive_call calls -> 0 <= counter_ self ->
  counter_ self + calls_units calls < uint128_modulus ->
  seed_ self' = seed_ self /\ seeds_ self' = seeds_ self /\ lctx_ self' = lctx_ self
  /\ counter_ self' = counter_ self + calls_units calls
  /\ exists evs, trace env' = trace env ++ evs
       /\ Forall (fun d => desc_seed d = seed_ self) (draws_of evs)
       /\ chained (counter_ self) (draws_of evs) (counter_ self').
Proof.
  induction calls as [|call calls IH]; intros self env outs self' env' Hrun Hpos Hc Hbound.
  - injection Hrun as <- <- <-. unfold calls_units; simpl.
    repeat split; try lia. exists []. rewrite app_nil_r. simpl. auto.
  - simpl in Hrun. unfold bind in Hrun.
    destruct (exec self call env) as [[[out self1] env1]|] eqn:Hcall; [|discriminate].
    destruct (exec_all self1 calls env1) as [[[outs1 self2] env2]|] eqn:Hrest;
      [|discriminate].
    injection Hrun as <- <- <-.
    inversion Hpos as [|? ? Hcallpos Hcallspos]; subst.
    pose proof (calls_units_nonneg calls Hcallspos) as Hunits.
    pose proof (call_units_positive call Hcallpos) as Hunit.
    unfold calls_units in Hbound; simpl in Hbound. fold (calls_units calls) in Hbound.
    destruct (exec_effect _ _ _ _ _ _ Hcall) as (Hself1 & evs1 & Htr1 & Hdraws1).
    destruct (generated_chained (fst (call_shapes call)) (snd (call_shapes call))
                (seed_ self) (counter_ self) Hcallpos Hc ltac:(unfold call_units in *; lia))
      as (Hch1 & Hfin1).
    fold (call_units call) in Hfin1.
    assert (Hc1 : counter_ self1 = counter_ self + call_units call).
    { rewrite Hself1. simpl. exact Hfin1. }
    destruct (IH self1 env1 outs1 self2 env2 Hrest Hcallspos ltac:(lia) ltac:(lia))
      as (Hs & Hss & Hl & Hcnt & evs2 & Htr2 & Hseed2 & Hch2).
    rewrite Hself1 in Hs, Hss, Hl. simpl in Hs, Hss, Hl.
    unfold calls_units; simpl. fold (calls_units calls).
    repeat split; auto; try lia.
    exists (evs1 ++ evs2). rewrite Htr2, Htr1, app_assoc, draws_of_app.
    repeat split.
    + apply Forall_app. split.
      * rewrite Hdraws1. apply generated_seed.
      * rewrite Hself1 in Hseed2. exact Hseed2.
    + apply chained_app with (c2 := counter_ self1).
      * rewrite Hdraws1, Hself1. exact Hch1.
      * exact Hch2.
Qed.

Lemma skipn_trace {A} (l evs : list A) : skipn (List.length l) (l ++ evs) = evs.
Proof. induction l; simpl; auto. Qed.

(** C4: along any sequence of calls on one session (shapes of positive
    extents, the 128-bit counter not wrapping) the counter strictly
    increases, every draw is made under the session's one seed, and the
    counter ranges of any two draws are disjoint: the earlier one ends
    before the later one begins. *)
Theorem counter_ranges_never_overlap self calls env outs self' env' :
  exec_all self calls env = Some ((outs, self'), env') ->
  Forall positive_call calls -> 0 <= counter_ self ->
  counter_ self + calls_units calls < uint128_modulus ->
  let draws := draws_of (skipn (List.length (trace env)) (trace env')) in
  (calls <> [] -> counter_ self < counter_ self')
  /\ seed_ self' = seed_ self
  /\ Forall (fun d => desc_seed d = seed_ self) draws
  /\ forall i j d d', (i < j)%nat ->
       nth_error draws i = Some d -> nth_error draws j = Some d' ->
       desc_counter d < desc_counter_end d
       /\ desc_counter_end d <= desc_counter d'
       /\ desc_counter d' < desc_counter_end d'.
Proof.
  intros Hrun Hpos Hc Hbound draws.
  destruct (exec_all_chained calls self env outs self' env' Hrun Hpos Hc Hbound)
    as (Hs & _ & _ & Hcnt & evs & Htr & Hseed & Hch).
  subst draws. rewrite Htr, skipn_trace.
  repeat split; auto.
  - intros Hne. destruct calls as [|call calls]; [congruence|].
    inversion Hpos as [|? ? Hcallpos Hcallspos]; subst.
    rewrite Hcnt. unfold calls_units; simpl.
    pose proof (call_units_positive call Hcallpos).
    pose proof (calls_units_nonneg calls Hcallspos) as Hn. unfold calls_units in Hn. lia.
  - apply (chained_ordered _ _ _ Hch i j d d'); auto.
  - apply (chained_ordered _ _ _ Hch i j d d'); auto.
  - apply (chained_ordered _ _ _ Hch i j d d'); auto.
Qed.

(* ===================================================================== *)
(** ** Buffers: what is sent is what is read back *)
(* ===================================================================== *)

Lemma le_bytes_length n v : List.length (le_bytes n v) = n.
Proof. revert v. induction n as [|n IH]; intros v; simpl; auto. Qed.

Lemma le_value_le_bytes n v : le_value (le_bytes n v) = v mod 256 ^ Z.of_nat n.
Proof.
  revert v. induction n as [|n IH]; intros v.
  - simpl. now rewrite Z.mod_1_r.
  - cbn [le_bytes le_value]. rewrite IH, Nat2Z.inj_succ, Z.pow_succ_r by lia.
    rewrite Z.rem_mul_r by lia. reflexivity.
Qed.

Lemma Deserialize_Serialize v :
  0 <= v < uint128_modulus -> DeserializeUint128 (SerializeUint128 v) = v.
Proof.
  intros Hv. unfold DeserializeUint128, SerializeUint128.
  rewrite le_value_le_bytes.
  change (256 ^ Z.of_nat 16) with uint128_modulus.
  rewrite Z.mod_mod by (unfold uint128_modulus; lia).
  now apply Z.mod_small.
Qed.

Lemma int64_of_unsigned_wrap v :
  - 2 ^ 63 <= v < 2 ^ 63 -> int64_of_unsigned (v mod 2 ^ 64) = v.
Proof.
  intros Hv. unfold int64_of_unsigned.
  destruct (Z_lt_ge_dec v 0) as [Hneg|Hpos].
  - replace (v mod 2 ^ 64) with (v + 2 ^ 64).
    + destruct (Z.ltb_spec (v + 2 ^ 64) (2 ^ 63)); lia.
    + symmetry. rewrite <- (Z.mod_add v 1 (2 ^ 64)) by lia.
      apply Z.mod_small. lia.
  - rewrite Z.mod_small by lia.
    destruct (Z.ltb_spec v (2 ^ 63)); lia.
Qed.

Lemma read_int64s_Buffer perm_vec :
  Forall (fun v => - 2 ^ 63 <= v < 2 ^ 63) perm_vec ->
  read_int64s (List.length perm_vec) (Buffer_of_int64s perm_vec) = perm_vec.
Proof.
  induction 1 as [|v l Hv _ IH]; [reflexivity|].
  cbn [List.length read_int64s Buffer_of_int64s flat_map].
  rewrite firstn_app, skipn_app, le_bytes_length.
  rewrite firstn_all2 by (rewrite le_bytes_length; lia).
  rewrite skipn_all2 by (rewrite le_bytes_length; lia).
  replace (8 - 8)%nat with 0%nat by lia. simpl firstn. simpl skipn.
  rewrite app_nil_r, le_value_le_bytes.
  change (256 ^ Z.of_nat 8) with (2 ^ 64).
  rewrite int64_of_unsigned_wrap by exact Hv.
  f_equal. exact IH.
Qed.

Lemma Buffer_of_int64s_length perm_vec :
  List.length (Buffer_of_int64s perm_vec) = (List.length perm_vec * 8)%nat.
Proof.
  unfold Buffer_of_int64s. apply flat_map_length_const.
  intros v. apply le_bytes_length.
Qed.

(** The vector rank 0 reads out of the received buffer is the vector the
    owner put in. *)
Lemma MakeSpan_Buffer perm_vec :
  Forall (fun v => - 2 ^ 63 <= v < 2 ^ 63) perm_vec ->
  MakeSpan_int64 (Buffer_of_int64s perm_vec) = perm_vec.
Proof.
  intros Hv. unfold MakeSpan_int64.
  rewrite Buffer_of_int64s_length, Nat.div_mul by lia.
  now apply read_int64s_Buffer.
Qed.

(* ===================================================================== *)
(** ** The link layer *)
(* ===================================================================== *)

Lemma take_message_last P l m :
  Forall (fun x => P x = false) l -> P m = true ->
  take_message P (l ++ [m]) = Some (m, l).
Proof.
  intros Hl Hm. induction Hl as [|x l Hx _ IH]; simpl.
  - now rewrite Hm.
  - now rewrite Hx, IH.
Qed.

Lemma take_message_found P l m rest :
  take_message P l = Some (m, rest) -> P m = true.
Proof.
  revert rest. induction l as [|x l IH]; intros rest; simpl; [discriminate|].
  destruct (P x) eqn:Hx.
  - now intros [= <- <-].
  - destruct (take_message P l) as [[y r]|]; [|discriminate].
    intros [= <- <-]. eapply IH; reflexivity.
Qed.

Lemma matches_spec lctx src tag m :
  matches lctx src tag m = true <->
  msg_ctx m = ctx_id lctx /\ msg_src m = src /\ msg_dst m = Rank lctx /\ msg_tag m = tag.
Proof. no_params.
  unfold matches.
  rewrite !andb_true_iff, !Nat.eqb_eq, String.eqb_eq.
  destruct (list_eq_dec Nat.eq_dec (msg_ctx m) (ctx_id lctx)); intuition congruence.
Qed.

Lemma matches_sent lctx src tag id dst body src' :
  id = ctx_id lctx -> dst = Rank lctx ->
  matches lctx src tag (mkMessage id src' dst tag body) = Nat.eqb src' src.
Proof.
  intros -> ->. unfold matches; simpl.
  destruct (list_eq_dec Nat.eq_dec (ctx_id lctx) (ctx_id lctx)); [|congruence].
  now rewrite Nat.eqb_refl, String.eqb_refl, !andb_true_r.
Qed.

(* ===================================================================== *)
(** ** Construction: the seed exchange *)
(* ===================================================================== *)

Lemma sampled_range pos : 0 <= sampled pos < uint128_modulus.
Proof. apply Z.mod_pos_bound. reflexivity. Qed.

(** A party other than rank 0 samples, sends, and keeps no roster. *)
Lemma new_nonroot lctx env :
  Rank lctx <> 0%nat ->
  let self := mkBeaver lctx (sampled (rng_pos env)) 0 [] in
  BeaverTfpUnsafe_new lctx env
  = Some (self, mkEnv (net env ++ [sync_message self])
                      (trace env ++ [EvSend (sync_message self)])
                      (S (rng_pos env))).
Proof.
  intros Hrank self. apply Nat.eqb_neq in Hrank.
  unfold BeaverTfpUnsafe_new, Gather, bind, RandSeed. now rewrite Hrank.
Qed.

Lemma constructed_rest_lctx ctxs pos : map lctx_ (constructed_rest ctxs pos) = ctxs.
Proof. induction ctxs as [|c ctxs IH]; simpl; auto. now rewrite IH. Qed.

Lemma constructed_rest_seed_range ctxs pos :
  Forall (fun p => 0 <= seed_ p < uint128_modulus) (constructed_rest ctxs pos).
Proof.
  induction ctxs as [|c ctxs IH]; simpl; constructor; auto. apply sampled_range.
Qed.

Lemma constructed_rest_length ctxs pos :
  List.length (constructed_rest ctxs pos) = List.length ctxs.
Proof. induction ctxs as [|c ctxs IH]; simpl; auto. Qed.

Lemma run_rest_new ctxs : forall env,
  Forall (fun lctx => Rank lctx <> 0%nat) ctxs ->
  let ps := constructed_rest ctxs (rng_pos env) in
  run_parties BeaverTfpUnsafe_new ctxs env
  = Some (ps, mkEnv (net env ++ map sync_message (rev ps))
                    (trace env ++ map EvSend (map sync_message (rev ps)))
                    (rng_pos env + List.length ctxs)).
Proof.
  induction ctxs as [|lctx rest IH]; intros env Hall ps; subst ps.
  - simpl. unfold ret. destruct env; simpl. now rewrite !app_nil_r, Nat.add_0_r.
  - inversion Hall as [|? ? Hrank Hrest]; subst.
    cbn [run_parties]. unfold bind. rewrite (IH env Hrest).
    rewrite new_nonroot by exact Hrank. unfold ret. cbn [rng_pos net trace].
    cbn [constructed_rest rev List.length]. rewrite !map_app, !app_assoc. cbn [map].
    now rewrite Nat.add_succ_r.
Qed.

Lemma mapM_Recv_collects lctx buf ps : forall env,
  NoDup (map (fun p => Rank (lctx_ p)) ps) ->
  Forall (fun p => Rank (lctx_ p) <> 0%nat /\ ctx_id (lctx_ p) = ctx_id lctx) ps ->
  Rank lctx = 0%nat ->
  net env = map sync_message (rev ps) ->
  mapM (fun r => if Nat.eqb r 0 then ret buf else Recv lctx r kSyncSeeds)
       (map (fun p => Rank (lctx_ p)) ps) env
  = Some (map (fun p => SerializeUint128 (seed_ p)) ps,
          mkEnv [] (trace env ++ map EvRecv (map sync_message ps)) (rng_pos env)).
Proof.
  induction ps as [|p ps IH]; intros env Hnd Hall Hroot Hnet.
  - simpl in *. unfold ret. destruct env; simpl in *. subst. now rewrite app_nil_r.
  - inversion Hall as [|? ? [Hrank Hid] Hps]; subst.
    inversion Hnd as [|? ? Hnotin Hnd']; subst.
    cbn [map mapM]. unfold bind at 1.
    apply Nat.eqb_neq in Hrank. rewrite Hrank.
    unfold Recv. rewrite Hnet. cbn [rev]. rewrite map_app. cbn [map].
    rewrite take_message_last.
    + cbn [msg_body sync_message]. unfold bind.
      rewrite IH; auto. unfold ret. cbn [trace rng_pos].
      now rewrite <- app_assoc.
    + apply Forall_forall. intros m Hm. apply in_map_iff in Hm.
      destruct Hm as (q & <- & Hq). apply in_rev in Hq.
      rewrite Forall_forall in Hps. destruct (Hps q Hq) as [_ Hqid].
      unfold sync_message. rewrite matches_sent; auto.
      apply Nat.eqb_neq. intros Heq. apply Hnotin.
      apply in_map_iff. exists q. split; auto.
    + unfold sync_message. rewrite matches_sent; auto. apply Nat.eqb_refl.
Qed.

Lemma fold_push_back {A B} (f : A -> B) l : forall init,
  fold_left (fun acc x => acc ++ [f x]) l init = init ++ map f l.
Proof.
  induction l as [|x l IH]; intros init; simpl.
  - now rewrite app_nil_r.
  - now rewrite IH, <- app_assoc.
Qed.

Lemma map_nth_seq {A} (l : list A) d :
  map (fun i => nth i l d) (seq 0 (List.length l)) = l.
Proof.
  induction l as [|x l IH]; simpl; [reflexivity|].
  f_equal. rewrite <- seq_shift, map_map. exact IH.
Qed.

Lemma well_ranked_rest lctx0 rest :
  well_ranked (lctx0 :: rest) ->
  Rank lctx0 = 0%nat /\ WorldSize lctx0 = S (List.length rest)
  /\ map Rank rest = seq 1 (List.length rest)
  /\ Forall (fun lctx => Rank lctx <> 0%nat /\ ctx_id lctx = ctx_id lctx0) rest.
Proof.
  intros [Hws Hall]. split; [|split; [|split]].
  - now destruct (Hall 0%nat lctx0 eq_refl).
  - exact Hws.
  - apply nth_ext with (d := 0%nat) (d' := 0%nat).
    + now rewrite length_map, length_seq.
    + intros i Hi. rewrite length_map in Hi.
      rewrite seq_nth by exact Hi.
      destruct (nth_error rest i) as [c|] eqn:Hc.
      * rewrite (nth_error_nth _ _ _ (map_nth_error Rank _ _ Hc)).
        now destruct (Hall (S i) c Hc).
      * apply nth_error_None in Hc. lia.
  - apply Forall_forall. intros c Hin.
    destruct (In_nth_error _ _ Hin) as [r Hr].
    destruct (Hall (S r) c Hr) as [H1 H2]. split; auto. lia.
Qed.

(** Rank 0's side of the gather: its own buffer first, then the buffers
    of the others, by rank. *)
Lemma Gather_root lctx0 buf tail env :
  Rank lctx0 = 0%nat -> WorldSize lctx0 = S (List.length tail) ->
  map (fun p => Rank (lctx_ p)) tail = seq 1 (List.length tail) ->
  Forall (fun p => Rank (lctx_ p) <> 0%nat /\ ctx_id (lctx_ p) = ctx_id lctx0) tail ->
  net env = map sync_message (rev tail) ->
  Gather lctx0 buf 0 kSyncSeeds env
  = Some (buf :: map (fun p => SerializeUint128 (seed_ p)) tail,
          mkEnv [] (trace env ++ map EvRecv (map sync_message tail)) (rng_pos env)).
Proof.
  intros Hr0 Hws Hranks Htail Hnet.
  unfold Gather. rewrite Hr0, Hws. cbn [Nat.eqb seq mapM].
  unfold bind at 1. unfold ret at 1. unfold bind at 1.
  rewrite <- Hranks.
  rewrite (mapM_Recv_collects lctx0 buf tail env); auto.
  rewrite Hranks. apply seq_NoDup.
Qed.

(** The seed exchange, all parties together: everybody samples a seed of
    its own, rank 0 ends up with the roster of all seeds by rank, the
    others with none, and no message stays in flight. *)
Lemma construct_all lctx0 rest env :
  well_ranked (lctx0 :: rest) -> net env = [] ->
  let tail := constructed_rest rest (rng_pos env) in
  let seed0 := sampled (rng_pos env + List.length rest) in
  let ps := mkBeaver lctx0 seed0 0 (seed0 :: map seed_ tail) :: tail in
  run_parties BeaverTfpUnsafe_new (lctx0 :: rest) env
  = Some (ps, mkEnv [] (trace env ++ map EvSend (map sync_message (rev tail))
                                  ++ map EvRecv (map sync_message tail))
                    (S (rng_pos env + List.length rest))).
Proof.
  intros Hwr Hnet tail seed0 ps.
  destruct (well_ranked_rest lctx0 rest Hwr) as (Hr0 & Hws & Hranks & Hrest).
  cbn [run_parties]. unfold bind at 1.
  rewrite run_rest_new.
  2:{ eapply Forall_impl; [|exact Hrest]. now intros c [H _]. }
  fold tail. rewrite Hnet. cbn [app].
  assert (Hlen : List.length tail = List.length rest)
    by apply constructed_rest_length.
  assert (Htail_ranks : map (fun p => Rank (lctx_ p)) tail = seq 1 (List.length tail)).
  { rewrite Hlen, <- Hranks, <- (constructed_rest_lctx rest (rng_pos env)) at 1.
    now rewrite map_map. }
  unfold BeaverTfpUnsafe_new, bind, RandSeed. cbn [rng_pos net trace].
  fold (sampled (rng_pos env + List.length rest)). fold seed0.
  rewrite (Gather_root lctx0 (SerializeUint128 seed0) tail); auto.
  - unfold ret. cbn [trace rng_pos]. rewrite Hr0, Hws. cbn [Nat.eqb].
    subst ps. rewrite <- app_assoc. do 3 f_equal.
    set (all_bufs := SerializeUint128 seed0
                     :: map (fun p => SerializeUint128 (seed_ p)) tail).
    assert (Hbufs : List.length all_bufs = S (List.length rest)).
    { subst all_bufs. simpl. now rewrite length_map, Hlen. }
    rewrite <- Hbufs, fold_push_back. cbn [app].
    rewrite <- (map_map (fun rank => nth rank all_bufs []) DeserializeUint128).
    rewrite map_nth_seq. subst all_bufs. cbn [map].
    rewrite Deserialize_Serialize by apply sampled_range.
    fold seed0. rewrite map_map. f_equal. apply (f_equal (cons seed0)).
    apply map_ext_in. intros p Hp.
    apply Deserialize_Serialize.
    pose proof (constructed_rest_seed_range rest (rng_pos env)) as Hrange.
    rewrite Forall_forall in Hrange. now apply Hrange.
  - now rewrite Hlen.
  - apply Forall_forall. intros p Hp.
    assert (Hin : In (lctx_ p) rest).
    { rewrite <- (constructed_rest_lctx rest (rng_pos env)). now apply in_map. }
    rewrite Forall_forall in Hrest. now apply Hrest.
Qed.

Lemma constructed_rest_counter ctxs pos :
  Forall (fun p => counter_ p = 0) (constructed_rest ctxs pos).
Proof. induction ctxs as [|c ctxs IH]; simpl; constructor; auto. Qed.

(** After the seed exchange the parties are in lockstep and nothing is in
    flight. *)
Lemma constructed_in_lockstep lctx0 rest env :
  well_ranked (lctx0 :: rest) -> net env = [] ->
  exists parties env',
    run_parties BeaverTfpUnsafe_new (lctx0 :: rest) env = Some (parties, env')
    /\ map lctx_ parties = lctx0 :: rest
    /\ in_lockstep parties /\ net env' = [].
Proof.
  intros Hwr Hnet. eexists _, _.
  split; [apply (construct_all lctx0 rest env Hwr Hnet)|].
  assert (Hl : map lctx_ (mkBeaver lctx0 (sampled (rng_pos env + List.length rest)) 0
                            (sampled (rng_pos env + List.length rest)
                             :: map seed_ (constructed_rest rest (rng_pos env)))
                          :: constructed_rest rest (rng_pos env))
               = lctx0 :: rest).
  { cbn [map lctx_]. now rewrite constructed_rest_lctx. }
  split; [exact Hl|]. split; [|reflexivity].
  split; [reflexivity|].
  intros r p Hp. destruct Hwr as [_ Hranks].
  assert (Hc : nth_error (lctx0 :: rest) r = Some (lctx_ p)).
  { rewrite <- Hl. now apply map_nth_error. }
  destruct (Hranks r (lctx_ p) Hc) as [Hr Hid]. repeat split; auto.
  destruct r as [|r]; [now injection Hp as <-|].
  cbn [nth_error] in Hp. apply nth_error_In in Hp.
  pose proof (constructed_rest_counter rest (rng_pos env)) as Hz.
  rewrite Forall_forall in Hz. now apply Hz.
Qed.

Lemma run_parties_each {A B} (f : A -> M B) parties : forall env outs env',
  run_parties f parties env = Some (outs, env') ->
  Forall2 (fun p out => exists e1 e2, f p e1 = Some (out, e2)) parties outs.
Proof.
  no_params.
  induction parties as [|p rest IH]; intros env outs env' Hrun.
  - injection Hrun as <- <-. constructor.
  - cbn [run_parties] in Hrun. unfold bind in Hrun.
    destruct (run_parties f rest env) as [[rs env1]|] eqn:Hrest; [|discriminate].
    destruct (f p env1) as [[r env2]|] eqn:Hp; [|discriminate].
    injection Hrun as <- <-. constructor; eauto.
Qed.

Lemma generated_final field shapes seed : forall counter,
  snd (generated field shapes seed counter) = fold_left advance shapes counter.
Proof.
  induction shapes as [|shape shapes IH]; intros counter; [reflexivity|].
  cbn [generated fold_left prgCreateArray]. specialize (IH (advance counter shape)).
  unfold advance in *.
  destruct (generated field shapes seed _) as [more final]. exact IH.
Qed.

Lemma lockstep_set_counter (f : PrgCounter -> PrgCounter) parties :
  in_lockstep parties ->
  in_lockstep (map (fun p => set_counter p (f (counter_ p))) parties).
Proof.
  no_params.
  destruct parties as [|p0 rest]; [contradiction|].
  intros [Hseeds Hall]. split.
  - cbn [map set_counter seeds_]. rewrite Hseeds. cbn [map]. f_equal.
    now rewrite map_map.
  - intros r p Hp. apply nth_error_map_inv in Hp.
    destruct Hp as (q & Hq & ->). destruct (Hall r q Hq) as (H1 & H2 & H3).
    cbn [set_counter lctx_ counter_]. now rewrite H2.
Qed.

(** The same call made by all parties leaves them in lockstep. *)
Lemma exec_keeps_lockstep call parties env outs env' :
  in_lockstep parties ->
  run_parties (fun p => exec p call) parties env = Some (outs, env') ->
  in_lockstep (map snd outs).
Proof.
  intros Hlock Hrun.
  apply run_parties_each in Hrun.
  assert (Hmap : map snd outs
                 = map (fun p => set_counter p
                                   (fold_left advance (snd (call_shapes call)) (counter_ p)))
                       parties).
  { clear Hlock. induction Hrun as [|p out ps os (e1 & e2 & Hp) _ IH]; [reflexivity|].
    cbn [map]. rewrite IH. f_equal. destruct out as [o self'].
    destruct (exec_effect _ _ _ _ _ _ Hp) as [-> _].
    cbn [snd]. now rewrite generated_final. }
  rewrite Hmap. now apply lockstep_set_counter.
Qed.

Lemma run_calls_lockstep calls : forall parties env parties' env',
  in_lockstep parties ->
  run_calls parties calls env = Some (parties', env') ->
  in_lockstep parties'.
Proof.
  induction calls as [|call calls IH]; intros parties env parties' env' Hlock Hrun.
  - now injection Hrun as <- <-.
  - cbn [run_calls] in Hrun. unfold bind in Hrun.
    destruct (run_parties _ parties env) as [[outs env1]|] eqn:Hcall; [|discriminate].
    eapply IH; [|exact Hrun]. eapply exec_keeps_lockstep; eassumption.
Qed.

(** From the seed exchange on, whatever calls the parties have made
    together, they are in lockstep: the correctness statements of the
    operations apply at every point of a protocol run. *)
Lemma protocol_run_in_lockstep lctx0 rest calls env parties env1 parties' env2 :
  well_ranked (lctx0 :: rest) -> net env = [] ->
  run_parties BeaverTfpUnsafe_new (lctx0 :: rest) env = Some (parties, env1) ->
  run_calls parties calls env1 = Some (parties', env2) ->
  in_lockstep parties'.
Proof.
  intros Hwr Hnet Hnew Hrun.
  destruct (constructed_in_lockstep lctx0 rest env Hwr Hnet)
    as (ps & e & Hnew' & _ & Hlock & _).
  rewrite Hnew in Hnew'. injection Hnew' as <- <-.
  eapply run_calls_lockstep; eassumption.
Qed.

(** No call touches anything of the session but its counter. *)
Lemma exec_all_frame calls : forall self env outs self' env',
  exec_all self calls env = Some ((outs, self'), env') ->
  seeds_ self' = seeds_ self /\ seed_ self' = seed_ self /\ lctx_ self' = lctx_ self.
Proof.
  induction calls as [|call calls IH]; intros self env outs self' env' Hrun.
  - injection Hrun as <- <- <-. auto.
  - simpl in Hrun. unfold bind in Hrun.
    destruct (exec self call env) as [[[out self1] env1]|] eqn:Hcall; [|discriminate].
    destruct (exec_all self1 calls env1) as [[[outs1 self2] env2]|] eqn:Hrest;
      [|discriminate].
    injection Hrun as <- <- <-.
    destruct (exec_effect _ _ _ _ _ _ Hcall) as (Hself1 & _).
    destruct (IH _ _ _ _ _ Hrest) as (H1 & H2 & H3).
    rewrite Hself1 in H1, H2, H3. auto.
Qed.

(** C7: a session of rank other than 0 keeps no seed but its own (its
    roster is empty when the constructor returns); at rank 0 the
    constructor fills the roster with one seed per rank, the seed of rank
    [r] at index [r]; and no later sequence of calls, nor a Spawn, changes
    any roster. *)
Theorem seed_roster_confined lctx0 rest env :
  well_ranked (lctx0 :: rest) -> net env = [] ->
  exists parties env',
    run_parties BeaverTfpUnsafe_new (lctx0 :: rest) env = Some (parties, env')
    /\ map lctx_ parties = lctx0 :: rest
    /\ (forall r p, nth_error parties r = Some p -> r <> 0%nat -> seeds_ p = [])
    /\ (forall p0, nth_error parties 0 = Some p0 ->
          List.length (seeds_ p0) = List.length parties
          /\ forall r p, nth_error parties r = Some p ->
               nth_error (seeds_ p0) r = Some (seed_ p))
    /\ (forall p calls env1 outs p' env2,
          In p parties ->
          exec_all p calls env1 = Some ((outs, p'), env2) ->
          seeds_ p' = seeds_ p)
    /\ (forall p env1 child p' env2,
          In p parties ->
          Spawn p env1 = Some ((child, p'), env2) ->
          seeds_ p' = seeds_ p).
Proof.
  intros Hwr Hnet. eexists _, _.
  split; [apply (construct_all lctx0 rest env Hwr Hnet)|].
  split; [|split; [|split; [|split]]].
  - cbn [map lctx_]. now rewrite constructed_rest_lctx.
  - intros [|r] p Hp Hr; [congruence|]. cbn [nth_error] in Hp.
    apply nth_error_In in Hp. clear - Hp.
    induction rest as [|c rest IH]; simpl in Hp; [contradiction|].
    destruct Hp as [<-|Hp]; auto.
  - intros p0 [= <-]. cbn [seeds_ List.length]. split.
    + now rewrite length_map.
    + intros [|r] p Hp.
      * now injection Hp as <-.
      * cbn [nth_error] in *. now apply map_nth_error.
  - intros p calls env1 outs p' env2 _ Hrun.
    now destruct (exec_all_frame _ _ _ _ _ _ Hrun).
  - intros p env1 child p' env2 _. unfold Spawn, bind. cbn [Context_Spawn].
    destruct (BeaverTfpUnsafe_new _ env1) as [[c e]|]; [|discriminate].
    unfold ret. now intros [= <- <- <-].
Qed.

(* ===================================================================== *)
(** ** Spawn *)
(* ===================================================================== *)

Lemma mapM_Recv_effect lctx buf root tag l : forall env bufs env',
  mapM (fun r => if Nat.eqb r root then ret buf else Recv lctx r tag) l env
  = Some (bufs, env') ->
  rng_pos env' = rng_pos env
  /\ exists evs, trace env' = trace env ++ evs /\ Forall (on_channel lctx tag) evs.
Proof. no_params.
  induction l as [|r l IH]; intros env bufs env' Hrun.
  - injection Hrun as <- <-. split; auto. exists []. now rewrite app_nil_r.
  - cbn [mapM] in Hrun. unfold bind in Hrun.
    destruct (Nat.eqb r root).
    + unfold ret at 1 in Hrun.
      destruct (mapM _ l env) as [[ys env1]|] eqn:Hl; [|discriminate].
      injection Hrun as <- <-. eapply IH; eassumption.
    + unfold Recv in Hrun.
      destruct (take_message _ (net env)) as [[m rest]|] eqn:Htake; [|discriminate].
      destruct (mapM _ l _) as [[ys env1]|] eqn:Hl; [|discriminate].
      injection Hrun as <- <-.
      destruct (IH _ _ _ Hl) as (Hpos & evs & Htr & Hall).
      cbn [rng_pos trace] in *. split; auto.
      exists (EvRecv m :: evs). split.
      * rewrite Htr, <- app_assoc. reflexivity.
      * constructor; auto.
        apply take_message_found in Htake. apply matches_spec in Htake.
        simpl. tauto.
Qed.

Lemma Gather_effect lctx buf root tag env bufs env' :
  Gather lctx buf root tag env = Some (bufs, env') ->
  rng_pos env' = rng_pos env
  /\ exists evs, trace env' = trace env ++ evs /\ Forall (on_channel lctx tag) evs.
Proof.
  unfold Gather. destruct (Nat.eqb (Rank lctx) root).
  - apply mapM_Recv_effect.
  - unfold bind, SendAsync, ret. intros [= <- <-]. split; auto.
    eexists. split; [reflexivity|]. constructor; simpl; auto.
Qed.

(** What the constructor leaves, whenever it returns. *)
Lemma new_effect lctx env self env' :
  BeaverTfpUnsafe_new lctx env = Some (self, env') ->
  lctx_ self = lctx /\ seed_ self = sampled (rng_pos env) /\ counter_ self = 0
  /\ rng_pos env' = S (rng_pos env)
  /\ exists evs, trace env' = trace env ++ evs
                 /\ Forall (on_channel lctx kSyncSeeds) evs.
Proof.
  unfold BeaverTfpUnsafe_new, bind, RandSeed.
  destruct (Gather lctx _ 0 kSyncSeeds _) as [[all_bufs env1]|] eqn:Hg; [|discriminate].
  unfold ret. intros [= <- <-].
  destruct (Gather_effect _ _ _ _ _ _ _ Hg) as (Hpos & evs & Htr & Hall).
  cbn [rng_pos trace] in *. repeat split; auto. exists evs. auto.
Qed.

Lemma app_cons_neq {A} (l : list A) x : l ++ [x] <> l.
Proof.
  intros H. apply (f_equal (@List.length A)) in H.
  rewrite length_app in H. simpl in H. lia.
Qed.

(** What Spawn leaves at one party, whenever it returns there: the child
    is the constructor's result over the derived sub-context, and the
    parent keeps its seed, its counter and its roster. *)
Lemma Spawn_effect self env child self' env' :
  Spawn self env = Some ((child, self'), env') ->
  let sub := fst (Context_Spawn (lctx_ self)) in
  BeaverTfpUnsafe_new sub env = Some (child, env')
  /\ lctx_ child = sub
  /\ ctx_id sub <> ctx_id (lctx_ self)
  /\ Rank sub = Rank (lctx_ self) /\ WorldSize sub = WorldSize (lctx_ self)
  /\ seed_ child = sampled (rng_pos env) /\ rng_pos env' = S (rng_pos env)
  /\ counter_ child = 0
  /\ (exists evs, trace env' = trace env ++ evs
                  /\ Forall (on_channel sub kSyncSeeds) evs)
  /\ seed_ self' = seed_ self /\ counter_ self' = counter_ self
  /\ seeds_ self' = seeds_ self
  /\ ctx_id (lctx_ self') = ctx_id (lctx_ self)
  /\ (forall other, lctx_ other = lctx_ self ->
        exists other', Spawn other env = Some ((child, other'), env')
                       /\ seed_ other' = seed_ other
                       /\ counter_ other' = counter_ other
                       /\ seeds_ other' = seeds_ other).
Proof.
  unfold Spawn. cbn [Context_Spawn fst]. unfold bind.
  destruct (BeaverTfpUnsafe_new _ env) as [[c env1]|] eqn:Hnew; [|discriminate].
  unfold ret. intros [= <- <- <-].
  destruct (new_effect _ _ _ _ Hnew) as (Hl & Hs & Hc & Hpos & Hev).
  repeat split; auto.
  - cbn [ctx_id]. apply app_cons_neq.
  - intros other Hother. rewrite Hother, Hnew. eexists. repeat split.
Qed.

Lemma run_parties_Spawn parties : forall env,
  run_parties Spawn parties env
  = match run_parties BeaverTfpUnsafe_new (map spawned_ctx parties) env with
    | Some (children, env') => Some (combine children (map after_Spawn parties), env')
    | None => None
    end.
Proof.
  induction parties as [|p rest IH]; intros env; [reflexivity|].
  cbn [run_parties map]. unfold bind. rewrite IH.
  destruct (run_parties BeaverTfpUnsafe_new (map spawned_ctx rest) env)
    as [[children env1]|]; [|reflexivity].
  unfold Spawn, bind. cbn [Context_Spawn]. unfold spawned_ctx at 1. cbn [Context_Spawn fst].
  destruct (BeaverTfpUnsafe_new _ env1) as [[child env2]|]; reflexivity.
Qed.

Lemma combine_fst {A B} (l : list A) (l' : list B) :
  List.length l = List.length l' -> map fst (combine l l') = l.
Proof.
  no_params.
  revert l'. induction l as [|x l IH]; intros [|y l'] Hlen; simpl in *;
    try discriminate; auto.
  f_equal. apply IH. lia.
Qed.

Lemma combine_snd {A B} (l : list A) (l' : list B) :
  List.length l = List.length l' -> map snd (combine l l') = l'.
Proof.
  no_params.
  revert l'. induction l as [|x l IH]; intros [|y l'] Hlen; simpl in *;
    try discriminate; auto.
  f_equal. apply IH. lia.
Qed.

(** All parties spawning together: every Spawn returns, the children have
    exchanged their seeds on the sub-context and are in lockstep, nothing
    stays in flight, and the parents are as they were but for the count of
    children in their link context. *)
Lemma Spawn_all_return parties env k :
  well_ranked (map lctx_ parties) ->
  Forall (fun p => ctx_child_counter (lctx_ p) = k) parties ->
  net env = [] ->
  exists outs env',
    run_parties Spawn parties env = Some (outs, env')
    /\ in_lockstep (map fst outs)
    /\ map lctx_ (map fst outs) = map spawned_ctx parties
    /\ map snd outs = map after_Spawn parties
    /\ net env' = [].
Proof.
  intros Hwr Hk Hnet.
  destruct parties as [|p0 rest]; [contradiction|].
  assert (Hsub : well_ranked (map spawned_ctx (p0 :: rest))).
  { destruct Hwr as [Hws Hranks]. split.
    - cbn [map]. unfold spawned_ctx at 1. cbn [Context_Spawn fst WorldSize ctx_world_size].
      cbn [map] in Hws. unfold WorldSize in Hws. rewrite Hws.
      cbn [List.length]. now rewrite !length_map.
    - intros r c Hc. apply nth_error_map_inv in Hc.
      destruct Hc as (q & Hq & ->).
      destruct (Hranks r (lctx_ q) (map_nth_error lctx_ _ _ Hq)) as [Hr Hid].
      rewrite Forall_forall in Hk.
      pose proof (Hk q (nth_error_In _ _ Hq)) as Hkq.
      pose proof (Hk p0 (or_introl eq_refl)) as Hk0.
      cbn [map]. unfold spawned_ctx. cbn [Context_Spawn fst Rank ctx_rank ctx_id].
      cbn [map] in Hid. split; [exact Hr|]. now rewrite Hid, Hkq, Hk0. }
  cbn [map] in Hsub.
  destruct (constructed_in_lockstep _ _ env Hsub Hnet)
    as (children & env' & Hrun & Hctx & Hlock & Hnet').
  rewrite run_parties_Spawn. cbn [map]. rewrite Hrun.
  assert (Hlen : List.length children = List.length (map after_Spawn (p0 :: rest))).
  { rewrite <- (length_map lctx_ children), Hctx. cbn [List.length map].
    now rewrite !length_map. }
  eexists _, _. split; [reflexivity|].
  rewrite combine_fst, combine_snd by exact Hlen. auto.
Qed.







(* ===================================================================== *)
(** ** PermPair *)
(* ===================================================================== *)

Lemma PermPair_rest field shape perm_rank perm_vec_of rest : forall env,
  Forall (fun p => Rank (lctx_ p) <> 0%nat) rest ->
  run_parties (PermPair_call field shape perm_rank perm_vec_of) rest env
  = Some (map (PermPair_plain field shape) rest,
          mkEnv (net env ++ map (owner_message perm_vec_of)
                                (filter (is_owner perm_rank) (rev rest)))
                (trace env
                 ++ flat_map (PermPair_events field shape perm_rank perm_vec_of) (rev rest))
                (rng_pos env)).
Proof.
  induction rest as [|p rest IH]; intros env Hall.
  - simpl. unfold ret. destruct env; simpl. now rewrite !app_nil_r.
  - inversion Hall as [|? ? Hrank Hrest]; subst.
    cbn [run_parties]. unfold bind. rewrite (IH env Hrest).
    unfold PermPair_call at 1. rewrite PermPair_run. cbv zeta.
    apply Nat.eqb_neq in Hrank. rewrite Hrank.
    cbn [net trace rng_pos rev map].
    rewrite filter_app, flat_map_app, map_app. cbn [filter flat_map].
    fold (is_owner perm_rank p).
    assert (Hev : PermPair_events field shape perm_rank perm_vec_of p
                  = [EvDraw (desc_at field shape (seed_ p) (counter_ p));
                     EvDraw (desc_at field shape (seed_ p) (advance (counter_ p) shape))]
                    ++ (if is_owner perm_rank p
                        then [EvSend (owner_message perm_vec_of p)] else []))
      by reflexivity.
    rewrite Hev. clear Hev.
    destruct (is_owner perm_rank p); unfold ret, add_trace;
      cbn [net trace rng_pos map app];
      rewrite ?app_nil_r, <- ?app_assoc; reflexivity.
Qed.

Lemma comm_of_PermPair_events field shape perm_rank perm_vec_of l :
  comm_of (flat_map (PermPair_events field shape perm_rank perm_vec_of) l)
  = map EvSend (map (owner_message perm_vec_of) (filter (is_owner perm_rank) l)).
Proof.
  unfold comm_of. induction l as [|p l IH]; [reflexivity|].
  cbn [flat_map filter]. rewrite filter_app, IH.
  unfold PermPair_events. destruct (is_owner perm_rank p); reflexivity.
Qed.

Lemma no_owner_behind_rank0 perm_rank rest :
  perm_rank = 0%nat -> Forall (fun p => Rank (lctx_ p) <> 0%nat) rest ->
  filter (is_owner perm_rank) rest = [].
Proof.
  intros ->. induction 1 as [|p rest Hp _ IH]; [reflexivity|].
  cbn [filter]. unfold is_owner at 1.
  destruct (Nat.eqb_spec 0 (Rank (lctx_ p))); [congruence|exact IH].
Qed.

(** Ranks being positions, exactly one party is the owner. *)
Lemma one_owner perm_rank rest : forall off j q,
  (forall i p, nth_error rest i = Some p -> Rank (lctx_ p) = (off + i)%nat) ->
  nth_error rest j = Some q -> perm_rank = (off + j)%nat ->
  filter (is_owner perm_rank) rest = [q].
Proof.
  induction rest as [|p rest IH]; intros off j q Hranks Hq Hperm.
  - destruct j; discriminate.
  - cbn [filter]. unfold is_owner at 1.
    pose proof (Hranks 0%nat p eq_refl) as Hp.
    destruct j as [|j].
    + injection Hq as ->.
      destruct (Nat.eqb_spec perm_rank (Rank (lctx_ q))) as [_|Hne]; [|lia].
      f_equal.
      clear IH. assert (Hall : forall i p, nth_error rest i = Some p ->
                              Rank (lctx_ p) <> perm_rank).
      { intros i p' Hi. rewrite (Hranks (S i) p' Hi). lia. }
      clear - Hall. induction rest as [|x rest IH]; [reflexivity|].
      cbn [filter]. unfold is_owner at 1.
      destruct (Nat.eqb_spec perm_rank (Rank (lctx_ x))) as [Heq|_].
      * exfalso. apply (Hall 0%nat x eq_refl). auto.
      * apply IH. intros i p' Hi. apply (Hall (S i) p' Hi).
    + destruct (Nat.eqb_spec perm_rank (Rank (lctx_ p))); [lia|].
      apply (IH (S off) j q); auto; [|lia].
      intros i p' Hi. rewrite (Hranks (S i) p' Hi). lia.
Qed.

Lemma nth_reduced x i :
  reduced x -> 0 <= nth i (nd_data x) 0 < ring_modulus (nd_eltype x).
Proof.
  intros Hx. destruct (Nat.lt_ge_cases i (List.length (nd_data x))) as [Hi|Hi].
  - unfold reduced in Hx. rewrite Forall_forall in Hx. apply Hx, nth_In, Hi.
  - rewrite nth_overflow by exact Hi. pose proof (ring_modulus_pos (nd_eltype x)). lia.
Qed.

Lemma applyPerm_reduced x perm_vec : reduced x -> reduced (applyPerm x perm_vec).
Proof.
  intros Hx. unfold reduced, applyPerm; cbn [nd_data nd_eltype].
  apply Forall_forall. intros v Hv. apply in_map_iff in Hv.
  destruct Hv as (i & <- & _). now apply nth_reduced.
Qed.

Lemma comm_of_app evs1 evs2 : comm_of (evs1 ++ evs2) = comm_of evs1 ++ comm_of evs2.
Proof. apply filter_app. Qed.

(** How the run of PermPair goes, whoever owns the permutation: the
    parties behind rank 0 return what they drew, rank 0 corrects its b with
    the owner's vector, and the only traffic is the owner's message, sent
    and then received, when the owner is not rank 0. *)
Lemma PermPair_run_all field shape perm_rank perm_vec_of p0 rest env :
  in_lockstep (p0 :: rest) -> (perm_rank < List.length (p0 :: rest))%nat ->
  net env = [] ->
  Forall (fun v => - 2 ^ 63 <= v < 2 ^ 63) (perm_vec_of perm_rank) ->
  let perm_vec := perm_vec_of perm_rank in
  let c1 := advance (counter_ p0) shape in
  let descs := [desc_at field shape (seed_ p0) (counter_ p0);
                desc_at field shape (seed_ p0) c1] in
  exists evs owner,
    run_parties (PermPair_call field shape perm_rank perm_vec_of) (p0 :: rest) env
    = Some ((drawn field shape (seed_ p0) (counter_ p0),
             ring_add_ (drawn field shape (seed_ p0) c1)
                       (adjustPerm descs (seeds_ p0) perm_vec),
             set_counter p0 (advance c1 shape))
            :: map (PermPair_plain field shape) rest,
            mkEnv [] (trace env ++ evs) (rng_pos env))
    /\ nth_error (p0 :: rest) perm_rank = Some owner
    /\ comm_of evs
       = if Nat.eqb perm_rank 0 then []
         else [EvSend (perm_message owner perm_vec);
               EvRecv (perm_message owner perm_vec)].
Proof.
  intros Hlock Hlt Hnet Hint perm_vec c1 descs.
  pose proof Hlock as [_ Hranks].
  destruct (lockstep_inv p0 rest Hlock) as (Hr0 & Hseeds & Hrest).
  assert (Hnz : Forall (fun p => Rank (lctx_ p) <> 0%nat) rest).
  { eapply Forall_impl; [|exact Hrest]. now intros p [H _]. }
  cbn [run_parties]. unfold bind.
  rewrite (PermPair_rest field shape perm_rank perm_vec_of rest env Hnz).
  rewrite Hnet. cbn [app].
  unfold PermPair_call at 1. rewrite PermPair_run. cbv zeta.
  rewrite Hr0. cbn [Nat.eqb net trace rng_pos].
  rewrite filter_rev.
  destruct perm_rank as [|k].
  - rewrite (no_owner_behind_rank0 0 rest eq_refl Hnz).
    cbn [negb Nat.eqb rev map]. unfold ret, add_trace. cbn [net trace rng_pos].
    rewrite ?Hr0. fold perm_vec.
    eexists _, p0. split; [|split].
    + rewrite <- app_assoc. reflexivity.
    + reflexivity.
    + rewrite comm_of_app, comm_of_PermPair_events, filter_rev.
      now rewrite (no_owner_behind_rank0 0 rest eq_refl Hnz).
  - assert (Hk : (k < List.length rest)%nat) by (simpl in Hlt; lia).
    destruct (nth_error rest k) as [q|] eqn:Hq;
      [|apply nth_error_None in Hq; lia].
    assert (Hone : filter (is_owner (S k)) rest = [q]).
    { apply (one_owner (S k) rest 1 k q); auto.
      intros i p Hi. now destruct (Hranks (S i) p Hi). }
    destruct (Hranks (S k) q Hq) as (Hqr & _ & Hqid).
    rewrite Hone. cbn [rev app map negb Nat.eqb take_message].
    unfold owner_message, perm_message.
    rewrite matches_sent by (auto; now rewrite Hr0).
    rewrite Hqr, Nat.eqb_refl. cbn [msg_body].
    rewrite MakeSpan_Buffer by exact Hint. unfold ret. fold perm_vec.
    eexists _, q. split; [|split].
    + rewrite <- app_assoc. reflexivity.
    + exact Hq.
    + rewrite comm_of_app, comm_of_PermPair_events, filter_rev, Hone.
      cbn [rev app map]. unfold owner_message, perm_message. rewrite Hqr.
      reflexivity.
Qed.

(** C6 (PermPair): the B shares sum, modulo the ring, to the permutation
    vector applied to the sum of the A shares.  When the owner of the
    vector is rank 0 it is used as it is and no message travels; when it
    is another rank, that rank sends the plain vector to rank 0, which
    receives it, computes the correction from it and adds the correction
    to its B share; until the vector has been sent, rank 0 waits. *)
Theorem PermPair_reconstructs_permutation
    field shape perm_rank perm_vec_of parties env :
  in_lockstep parties -> (perm_rank < List.length parties)%nat ->
  net env = [] ->
  valid_perm_vec shape (perm_vec_of perm_rank) -> numel shape <= 2 ^ 63 ->
  let perm_vec := perm_vec_of perm_rank in
  exists outs env' owner,
    run_parties (PermPair_call field shape perm_rank perm_vec_of) parties env
    = Some (outs, env')
    /\ ring_sum (map pair_B outs) = applyPerm (ring_sum (map pair_A outs)) perm_vec
    /\ nth_error parties perm_rank = Some owner
    /\ net env' = []
    /\ comm_of (skipn (List.length (trace env)) (trace env'))
       = (if Nat.eqb perm_rank 0 then []
          else [EvSend (perm_message owner perm_vec);
                EvRecv (perm_message owner perm_vec)])
    /\ (forall r p out,
          nth_error parties r = Some p -> nth_error outs r = Some out ->
          let c1 := advance (counter_ p) shape in
          let descs := [desc_at field shape (seed_ p) (counter_ p);
                        desc_at field shape (seed_ p) c1] in
          pair_B out
          = if Nat.eqb r 0
            then ring_add_ (drawn field shape (seed_ p) c1)
                           (adjustPerm descs (seeds_ p) perm_vec)
            else drawn field shape (seed_ p) c1)
    /\ (perm_rank <> 0%nat ->
        forall p0, nth_error parties 0 = Some p0 ->
          PermPair_call field shape perm_rank perm_vec_of p0 env = None).
Proof.
  intros Hlock Hlt Hnet [Hlen Hidx] Hnumel perm_vec.
  destruct parties as [|p0 rest]; [contradiction|].
  assert (Hint : Forall (fun v => - 2 ^ 63 <= v < 2 ^ 63) (perm_vec_of perm_rank)).
  { eapply Forall_impl; [|exact Hidx]. intros v Hv. simpl in Hv. lia. }
  destruct (PermPair_run_all field shape perm_rank perm_vec_of p0 rest env
              Hlock Hlt Hnet Hint) as (evs & owner & Hrun & Howner & Hcomm).
  destruct (lockstep_inv p0 rest Hlock) as (Hr0 & Hseeds & Hrest).
  eexists _, _, owner. split; [exact Hrun|].
  split; [|split; [exact Howner|split; [reflexivity|split; [|split]]]].
  - cbn [map]. rewrite !map_map. unfold pair_A at 1, pair_B at 1. cbn [fst snd].
    rewrite (rest_shares (fun p => pair_A _) field shape (fun c => c) p0 rest Hrest)
      by reflexivity.
    rewrite (rest_shares (fun p => pair_B _) field shape
               (fun c => advance c shape) p0 rest Hrest) by reflexivity.
    unfold adjustPerm. rewrite Hseeds. cbn [reconstruct map nth].
    set (d0 := desc_at field shape (seed_ p0) (counter_ p0)).
    set (d1 := desc_at field shape (seed_ p0) (advance (counter_ p0) shape)).
    rewrite (input_shares field shape _ d0 p0 rest) by reflexivity.
    destruct (replay_sum_props d0 (seed_ p0) (map seed_ rest)) as (E0 & S0 & L0 & R0).
    cbn [map] in E0, S0, L0, R0.
    apply (corrected_shares field shape _ d1 p0 rest); try reflexivity.
    + now apply applyPerm_reduced.
    + exact E0.
    + exact S0.
    + cbn [applyPerm nd_data]. now rewrite length_map.
  - cbn [trace]. rewrite skipn_trace. exact Hcomm.
  - intros [|r] p out Hp Hout.
    + injection Hp as <-. injection Hout as <-. reflexivity.
    + cbn [nth_error] in Hp, Hout.
      apply nth_error_map_inv in Hout. destruct Hout as (p' & Hp' & ->).
      rewrite Hp in Hp'. injection Hp' as <-. reflexivity.
  - intros Hremote p [= <-]. unfold PermPair_call. rewrite PermPair_run. cbv zeta.
    rewrite Hr0, Hnet. apply Nat.eqb_neq in Hremote. rewrite Hremote. reflexivity.
Qed.

(** C10 (PermPair): a party that is neither rank 0 nor the owner of the
    permutation sends nothing and receives nothing: it draws its two
    arrays and returns them; and when the owner is rank 0, no party, rank 0
    included, sends or receives anything. *)
Theorem PermPair_bystander_is_silent self field shape perm_rank perm_vec env :
  (Rank (lctx_ self) <> 0%nat /\ Rank (lctx_ self) <> perm_rank)
  \/ perm_rank = 0%nat ->
  let a := drawn field shape (seed_ self) (counter_ self) in
  let b := drawn field shape (seed_ self) (advance (counter_ self) shape) in
  exists out self' evs,
    PermPair self field shape perm_rank perm_vec env
    = Some ((out, self'), mkEnv (net env) (trace env ++ evs) (rng_pos env))
    /\ comm_of evs = []
    /\ draws_of evs = [desc_at field shape (seed_ self) (counter_ self);
                       desc_at field shape (seed_ self) (advance (counter_ self) shape)]
    /\ List.length evs = 2%nat
    /\ fst out = a
    /\ (Rank (lctx_ self) <> 0%nat -> out = (a, b)).
Proof.
  intros Hcase a b. rewrite PermPair_run. cbv zeta.
  destruct (Nat.eqb_spec (Rank (lctx_ self)) 0) as [Hz|Hnz].
  - destruct Hcase as [[Hne _]|Hperm]; [congruence|].
    rewrite Hperm, Hz. cbn [Nat.eqb negb].
    eexists _, _, _. split; [reflexivity|]. repeat split. congruence.
  - assert (Hnot : Nat.eqb perm_rank (Rank (lctx_ self)) = false).
    { apply Nat.eqb_neq. destruct Hcase as [[_ Hne]|Hperm]; congruence. }
    rewrite Hnot.
    eexists _, _, _. split; [reflexivity|]. repeat split.
Qed.

(* ===================================================================== *)
(** ** Further properties of the methods *)
(* ===================================================================== *)

(** A call other than PermPair, at any rank: its closed form. *)
Lemma exec_local self call env :
  is_PermPair call = false ->
  exists out self' evs,
    exec self call env = Some ((out, self'), add_trace evs env)
    /\ comm_of evs = []
    /\ draws_of evs
       = map snd (fst (generated (fst (call_shapes call)) (snd (call_shapes call))
                                 (seed_ self) (counter_ self))).
Proof.
  intros Hcall.
  destruct call; try discriminate; cbn [exec call_shapes fst snd]; unfold bind.
  - rewrite Mul_run. eexists _, _, _. split; [reflexivity|]. split; reflexivity.
  - rewrite Dot_run. eexists _, _, _. split; [reflexivity|]. split; reflexivity.
  - rewrite And_run. eexists _, _, _. split; [reflexivity|]. split; reflexivity.
  - rewrite Trunc_run. eexists _, _, _. split; [reflexivity|]. split; reflexivity.
  - rewrite TruncPr_run. eexists _, _, _. split; [reflexivity|]. split; reflexivity.
  - rewrite RandBit_run. eexists _, _, _. split; [reflexivity|]. split; reflexivity.
  - rewrite Eqz_run. eexists _, _, _. split; [reflexivity|]. split; reflexivity.
Qed.

(** X1: Mul, Dot, And, Trunc, TruncPr, RandBit and Eqz never use the link
    and never wait, at rank 0 as at any other rank: the call returns, the
    messages in flight and the entropy stream are as before, and the only
    events are the draws from the generator. *)
Theorem local_calls_never_communicate self call env :
  is_PermPair call = false ->
  exists out self' evs,
    exec self call env
    = Some ((out, self'), mkEnv (net env) (trace env ++ evs) (rng_pos env))
    /\ comm_of evs = []
    /\ List.length evs = List.length (snd (call_shapes call))
    /\ List.length out = List.length (snd (call_shapes call)).
Proof.
  intros Hcall.
  destruct call; try discriminate; cbn [exec call_shapes fst snd]; unfold bind.
  - rewrite Mul_run. eexists _, _, _. split; [reflexivity|]. repeat split.
  - rewrite Dot_run. eexists _, _, _. split; [reflexivity|]. repeat split.
  - rewrite And_run. eexists _, _, _. split; [reflexivity|]. repeat split.
  - rewrite Trunc_run. eexists _, _, _. split; [reflexivity|]. repeat split.
  - rewrite TruncPr_run. eexists _, _, _. split; [reflexivity|]. repeat split.
  - rewrite RandBit_run. eexists _, _, _. split; [reflexivity|]. repeat split.
  - rewrite Eqz_run. eexists _, _, _. split; [reflexivity|]. repeat split.
Qed.

Ltac corrected_positions :=
  split;
  [ repeat constructor; cbn [fst nd_eltype nd_shape];
    match goal with
    | |- context [Nat.eqb ?r 0] => destruct (Nat.eqb r 0)
    | _ => idtac
    end; auto
  | intros i Hi; destruct i as [|[|[|i]]]; cbn [nth_error map fst];
    try reflexivity; exfalso; apply Hi; cbn; auto ].

(** X2: at every rank, rank 0 included, a call returns each array with
    the field and the shape it was drawn with, and every array but the
    designated ones (c for Mul, Dot, And; b for Trunc, PermPair, Eqz; rc and
    rb for TruncPr; a for RandBit) exactly as the generator produced it. *)
Theorem only_designated_shares_are_corrected self call env out self' env' :
  exec self call env = Some ((out, self'), env') ->
  let g := fst (generated (fst (call_shapes call)) (snd (call_shapes call))
                          (seed_ self) (counter_ self)) in
  Forall2 (fun x d => nd_eltype x = nd_eltype (fst d) /\ nd_shape x = nd_shape (fst d))
          out g
  /\ forall i, ~ In i (corrected_at call) ->
       nth_error out i = nth_error (map fst g) i.
Proof.
  destruct call; cbn [exec call_shapes fst snd corrected_at]; unfold bind.
  - rewrite Mul_run. intros [= <- <- <-]. corrected_positions.
  - rewrite Dot_run. intros [= <- <- <-]. corrected_positions.
  - rewrite And_run. intros [= <- <- <-]. corrected_positions.
  - rewrite Trunc_run. intros [= <- <- <-]. corrected_positions.
  - rewrite TruncPr_run. intros [= <- <- <-]. corrected_positions.
  - rewrite RandBit_run. intros [= <- <- <-]. corrected_positions.
  - rewrite PermPair_run. cbv zeta.
    destruct (Nat.eqb (Rank (lctx_ self)) 0);
      [destruct (negb (Nat.eqb perm_rank (Rank (lctx_ self))));
       [destruct (take_message _ (net env)) as [[m rest]|]; [|discriminate]|]
      |destruct (Nat.eqb perm_rank (Rank (lctx_ self)))];
      intros [= <- <- <-]; corrected_positions.
  - rewrite Eqz_run. intros [= <- <- <-]. corrected_positions.
Qed.

(** X3: PermPair reads its [perm_vec] argument at the owner only: at any
    party whose rank is not [perm_rank] (rank 0 with a remote owner
    included) the call does the same whatever vector is passed. *)
Theorem PermPair_reads_only_owner_vector self field shape perm_rank pv1 pv2 env :
  Rank (lctx_ self) <> perm_rank ->
  PermPair self field shape perm_rank pv1 env
  = PermPair self field shape perm_rank pv2 env.
Proof.
  intros Hrank. rewrite !PermPair_run. cbv zeta.
  assert (Hne : Nat.eqb perm_rank (Rank (lctx_ self)) = false)
    by (apply Nat.eqb_neq; congruence).
  rewrite Hne. cbn [negb].
  destruct (Nat.eqb (Rank (lctx_ self)) 0); reflexivity.
Qed.

(** X9: how far a sequence of calls moves the counter depends on the
    calls alone: two sessions that start from equal counters and make the
    same calls end with equal counters, whatever their ranks, seeds,
    rosters and environments. *)
Theorem same_calls_same_counter calls :
  forall s1 e1 outs1 s1' e1' s2 e2 outs2 s2' e2',
  exec_all s1 calls e1 = Some ((outs1, s1'), e1') ->
  exec_all s2 calls e2 = Some ((outs2, s2'), e2') ->
  counter_ s1 = counter_ s2 ->
  counter_ s1' = counter_ s2'
  /\ List.length outs1 = List.length calls /\ List.length outs2 = List.length calls.
Proof.
  induction calls as [|call calls IH];
    intros s1 e1 outs1 s1' e1' s2 e2 outs2 s2' e2' H1 H2 Hc.
  - injection H1 as <- <- <-. injection H2 as <- <- <-. auto.
  - cbn [exec_all] in H1, H2. unfold bind in H1, H2.
    destruct (exec s1 call e1) as [[[o1 t1] f1]|] eqn:Hx1; [|discriminate].
    destruct (exec_all t1 calls f1) as [[[os1 u1] g1]|] eqn:Hr1; [|discriminate].
    destruct (exec s2 call e2) as [[[o2 t2] f2]|] eqn:Hx2; [|discriminate].
    destruct (exec_all t2 calls f2) as [[[os2 u2] g2]|] eqn:Hr2; [|discriminate].
    injection H1 as <- <- <-. injection H2 as <- <- <-.
    destruct (exec_effect _ _ _ _ _ _ Hx1) as [Ht1 _].
    destruct (exec_effect _ _ _ _ _ _ Hx2) as [Ht2 _].
    assert (Hmid : counter_ t1 = counter_ t2).
    { rewrite Ht1, Ht2. cbn [set_counter counter_].
      now rewrite !generated_final, Hc. }
    destruct (IH _ _ _ _ _ _ _ _ _ _ Hr1 Hr2 Hmid) as (Hfin & Hl1 & Hl2).
    cbn [List.length]. auto.
Qed.

Lemma read_int64s_prefix perm_vec extra :
  Forall is_int64 perm_vec ->
  read_int64s (List.length perm_vec) (Buffer_of_int64s perm_vec ++ extra) = perm_vec.
Proof.
  no_params.
  induction 1 as [|v l Hv _ IH]; [reflexivity|].
  cbn [List.length read_int64s Buffer_of_int64s flat_map].
  rewrite <- app_assoc.
  rewrite firstn_app, skipn_app, le_bytes_length.
  rewrite firstn_all2 by (rewrite le_bytes_length; lia).
  rewrite skipn_all2 by (rewrite le_bytes_length; lia).
  replace (8 - 8)%nat with 0%nat by lia. cbn [firstn skipn app].
  rewrite app_nil_r, le_value_le_bytes.
  change (256 ^ Z.of_nat 8) with (2 ^ 64).
  rewrite int64_of_unsigned_wrap by exact Hv.
  f_equal. exact IH.
Qed.

(** X4: the vector travels unchanged through the buffer: whatever
    [int64_t] values it holds (negative ones included), the buffer the
    owner builds has eight bytes per element and rank 0 reads the same
    vector back; bytes beyond the last whole element (fewer than eight)
    are not read. *)
Theorem MakeSpan_int64_reads_whole_elements perm_vec extra :
  Forall is_int64 perm_vec -> (List.length extra < 8)%nat ->
  List.length (Buffer_of_int64s perm_vec) = (8 * List.length perm_vec)%nat
  /\ MakeSpan_int64 (Buffer_of_int64s perm_vec) = perm_vec
  /\ MakeSpan_int64 (Buffer_of_int64s perm_vec ++ extra) = perm_vec.
Proof.
  no_params.
  intros Hint Hextra. split; [|split].
  - rewrite Buffer_of_int64s_length. lia.
  - unfold MakeSpan_int64.
    rewrite <- (app_nil_r (Buffer_of_int64s perm_vec)) at 2.
    rewrite Buffer_of_int64s_length, Nat.div_mul by lia.
    now apply read_int64s_prefix.
  - unfold MakeSpan_int64.
    rewrite length_app, Buffer_of_int64s_length, Nat.div_add_l by lia.
    rewrite (Nat.div_small (List.length extra)) by exact Hextra.
    rewrite Nat.add_0_r. now apply read_int64s_prefix.
Qed.

Lemma mapM_length {A B} (f : A -> M B) l : forall env ys env',
  mapM f l env = Some (ys, env') -> List.length ys = List.length l.
Proof.
  no_params.
  induction l as [|x l IH]; intros env ys env' Hrun.
  - now injection Hrun as <- <-.
  - cbn [mapM] in Hrun. unfold bind in Hrun.
    destruct (f x env) as [[y env1]|]; [|discriminate].
    destruct (mapM f l env1) as [[ys1 env2]|] eqn:Hl; [|discriminate].
    injection Hrun as <- <-. cbn [List.length]. f_equal. eapply IH; eassumption.
Qed.

(** X5: what the constructor leaves, whenever it returns.  The seed is a
    128-bit value.  At rank 0 the roster has exactly [WorldSize] entries
    and the first is the session's own seed; at any other rank the roster
    is empty and the one thing put on the link is the session's seed,
    addressed to rank 0. *)
Theorem constructor_roster_shape lctx env self env' :
  BeaverTfpUnsafe_new lctx env = Some (self, env') ->
  0 <= seed_ self < uint128_modulus
  /\ (Rank lctx = 0%nat ->
      List.length (seeds_ self) = WorldSize lctx
      /\ (WorldSize lctx <> 0%nat -> nth_error (seeds_ self) 0 = Some (seed_ self)))
  /\ (Rank lctx <> 0%nat ->
      seeds_ self = [] /\ net env' = net env ++ [sync_message self]
      /\ sync_message self
         = mkMessage (ctx_id lctx) (Rank lctx) 0 kSyncSeeds (SerializeUint128 (seed_ self))).
Proof.
  intros Hnew. split; [|split].
  - destruct (new_effect _ _ _ _ Hnew) as (_ & -> & _). apply sampled_range.
  - intros Hroot. revert Hnew.
    unfold BeaverTfpUnsafe_new, bind, RandSeed, Gather.
    rewrite Hroot. cbn [Nat.eqb rng_pos].
    destruct (mapM _ (seq 0 (WorldSize lctx)) _) as [[all_bufs env1]|] eqn:Hg;
      [|discriminate].
    unfold ret. intros [= <- <-]. cbn [seeds_ seed_].
    rewrite fold_push_back. cbn [app]. split.
    + now rewrite length_map, length_seq.
    + intros Hws. destruct (WorldSize lctx) as [|n]; [congruence|].
      cbn [seq mapM] in Hg. unfold bind in Hg. cbn [Nat.eqb] in Hg.
      unfold ret at 1 in Hg.
      destruct (mapM _ (seq 1 n) _) as [[bufs env2]|]; [|discriminate].
      injection Hg as <- <-. cbn [seq map nth_error nth].
      f_equal. apply Deserialize_Serialize, Z.mod_pos_bound. reflexivity.
  - intros Hrank. rewrite new_nonroot in Hnew by exact Hrank.
    injection Hnew as <- <-. cbn [seeds_ net]. repeat split.
Qed.

(** X6: alone in its world, a party constructs its session without any
    communication: the constructor returns at once, nothing is sent or
    received, and the roster is the party's own seed. *)
Theorem single_party_constructs_alone lctx env :
  Rank lctx = 0%nat -> WorldSize lctx = 1%nat ->
  BeaverTfpUnsafe_new lctx env
  = Some (mkBeaver lctx (sampled (rng_pos env)) 0 [sampled (rng_pos env)],
          mkEnv (net env) (trace env) (S (rng_pos env))).
Proof.
  intros Hroot Hws.
  unfold BeaverTfpUnsafe_new, bind, RandSeed, Gather.
  rewrite Hroot, Hws. cbn [Nat.eqb seq mapM rng_pos net trace].
  unfold bind, ret. cbn [fold_left app nth].
  fold (sampled (rng_pos env)).
  now rewrite Deserialize_Serialize by apply sampled_range.
Qed.

(** X7: Spawn is invisible to the parent's own stream: after it, every
    call on the parent does what it would have done without the Spawn
    (same shares, same effect on the environment, same waiting), the two
    sessions differing in the count of children of their link context
    only. *)
Theorem Spawn_leaves_parent_stream self env child self' env' call e :
  Spawn self env = Some ((child, self'), env') ->
  exec self' call e
  = match exec self call e with
    | Some ((out, s), e') => Some ((out, after_Spawn s), e')
    | None => None
    end.
Proof.
  intros Hspawn.
  assert (Hself : self' = after_Spawn self).
  { revert Hspawn. unfold Spawn, bind. cbn [Context_Spawn].
    destruct (BeaverTfpUnsafe_new _ env) as [[c e0]|]; [|discriminate].
    unfold ret. now intros [= <- <- <-]. }
  subst self'. clear Hspawn.
  destruct call; cbn [exec]; unfold bind.
  - rewrite !Mul_run. reflexivity.
  - rewrite !Dot_run. reflexivity.
  - rewrite !And_run. reflexivity.
  - rewrite !Trunc_run. reflexivity.
  - rewrite !TruncPr_run. reflexivity.
  - rewrite !RandBit_run. reflexivity.
  - rewrite !PermPair_run. cbv zeta.
    change (Rank (lctx_ (after_Spawn self))) with (Rank (lctx_ self)).
    destruct (Nat.eqb (Rank (lctx_ self)) 0).
    + destruct (negb (Nat.eqb perm_rank (Rank (lctx_ self)))); [|reflexivity].
      change (matches (lctx_ (after_Spawn self)) perm_rank kTag)
        with (matches (lctx_ self) perm_rank kTag).
      destruct (take_message _ (net e)) as [[m rest]|]; reflexivity.
    + destruct (Nat.eqb perm_rank (Rank (lctx_ self))); reflexivity.
  - rewrite !Eqz_run. reflexivity.
Qed.

Lemma run_parties_silent {A B} (f : A -> M B) :
  (forall p env, exists out evs, f p env = Some (out, add_trace evs env)) ->
  forall parties env, exists outs evs,
    run_parties f parties env = Some (outs, add_trace evs env).
Proof.
  no_params.
  intros Hf parties. induction parties as [|p rest IH]; intros env.
  - exists [], []. cbn [run_parties]. unfold ret, add_trace.
    destruct env; cbn. now rewrite app_nil_r.
  - destruct (IH env) as (outs & evs & Hrest).
    destruct (Hf p (add_trace evs env)) as (out & evs' & Hp).
    exists (out :: outs), (evs ++ evs').
    cbn [run_parties]. unfold bind. rewrite Hrest, Hp. unfold ret.
    now rewrite add_trace_app.
Qed.

Lemma run_parties_ext {A B} (f g : A -> M B) :
  (forall p env, f p env = g p env) ->
  forall parties env, run_parties f parties env = run_parties g parties env.
Proof.
  no_params.
  intros Hfg parties. induction parties as [|p rest IH]; intros env; [reflexivity|].
  cbn [run_parties]. unfold bind. rewrite IH.
  destruct (run_parties g rest env) as [[rs env1]|]; [|reflexivity].
  now rewrite Hfg.
Qed.

Lemma run_parties_bind_ret {A B C} (f : A -> M B) (h : B -> C) parties : forall env,
  run_parties (fun p => r <- f p ;; ret (h r)) parties env
  = match run_parties f parties env with
    | Some (rs, env') => Some (map h rs, env')
    | None => None
    end.
Proof.
  no_params.
  induction parties as [|p rest IH]; intros env; [reflexivity|].
  cbn [run_parties]. unfold bind at 1 2. rewrite IH. unfold bind.
  destruct (run_parties f rest env) as [[rs env1]|]; [|reflexivity].
  destruct (f p env1) as [[r env2]|]; reflexivity.
Qed.

(** The sessions after a call made by all parties. *)
Lemma exec_sessions call parties env outs env' :
  run_parties (fun p => exec p call) parties env = Some (outs, env') ->
  map snd outs
  = map (fun p => set_counter p
                    (fold_left advance (snd (call_shapes call)) (counter_ p)))
        parties.
Proof.
  intros Hrun. apply run_parties_each in Hrun.
  induction Hrun as [|p out ps os (e1 & e2 & Hp) _ IH]; [reflexivity|].
  cbn [map]. rewrite IH. f_equal. destruct out as [o self'].
  destruct (exec_effect _ _ _ _ _ _ Hp) as [-> _].
  cbn [snd]. now rewrite generated_final.
Qed.

(** One call made by all parties, the higher ranks first and rank 0 last:
    it completes, and leaves nothing in flight. *)
Lemma collective_call_completes call parties env :
  in_lockstep parties -> net env = [] ->
  call_ready (List.length parties) call ->
  exists outs env',
    run_parties (fun p => exec p call) parties env = Some (outs, env')
    /\ net env' = [] /\ rng_pos env' = rng_pos env.
Proof.
  intros Hlock Hnet Hready.
  destruct (is_PermPair call) eqn:Hkind.
  - destruct call; try discriminate. destruct Hready as [Hlt Hint].
    destruct parties as [|p0 rest]; [contradiction|].
    destruct (PermPair_run_all field shape perm_rank (fun _ => perm_vec) p0 rest env
                Hlock Hlt Hnet Hint) as (evs & owner & Hrun & _).
    rewrite (run_parties_ext _
               (fun p => r <- PermPair_call field shape perm_rank (fun _ => perm_vec) p ;;
                         ret (of_pair r))) by reflexivity.
    rewrite run_parties_bind_ret, Hrun.
    eexists _, _. split; [reflexivity|]. split; reflexivity.
  - destruct (run_parties_silent (fun p => exec p call)) with (parties := parties)
      (env := env) as (outs & evs & Hrun).
    { intros p e. destruct (exec_local p call e Hkind) as (out & self' & evs & Hp & _).
      now exists (out, self'), evs. }
    exists outs, (add_trace evs env). split; [exact Hrun|]. split; [exact Hnet|reflexivity].
Qed.

(** X8: a protocol run never gets stuck.  Parties in lockstep, with
    nothing in flight, that make the same calls one after the other (the
    owner of every permutation being one of them) complete every call;
    at the end nothing is in flight, no entropy was consumed, every party
    has the seed, the roster and the link context it started with, and the
    parties are in lockstep again. *)
Theorem protocol_run_completes calls : forall parties env,
  in_lockstep parties -> net env = [] ->
  Forall (call_ready (List.length parties)) calls ->
  exists parties' env',
    run_calls parties calls env = Some (parties', env')
    /\ net env' = [] /\ rng_pos env' = rng_pos env
    /\ in_lockstep parties'
    /\ map seed_ parties' = map seed_ parties
    /\ map seeds_ parties' = map seeds_ parties
    /\ map lctx_ parties' = map lctx_ parties.
Proof.
  induction calls as [|call calls IH]; intros parties env Hlock Hnet Hready.
  - exists parties, env. cbn [run_calls]. unfold ret. repeat split; auto.
  - inversion Hready as [|? ? Hcall Hcalls]; subst.
    destruct (collective_call_completes call parties env Hlock Hnet Hcall)
      as (outs & env1 & Hrun & Hnet1 & Hrng1).
    pose proof (exec_sessions _ _ _ _ _ Hrun) as Hsess.
    pose proof (exec_keeps_lockstep _ _ _ _ _ Hlock Hrun) as Hlock1.
    assert (Hlen : List.length (map snd outs) = List.length parties)
      by (rewrite Hsess; apply length_map).
    rewrite <- Hlen in Hcalls.
    destruct (IH (map snd outs) env1 Hlock1 Hnet1 Hcalls)
      as (parties' & env' & Hrest & Hnet' & Hrng' & Hlock' & Hs & Hss & Hl).
    exists parties', env'. cbn [run_calls]. unfold bind. rewrite Hrun.
    split; [exact Hrest|]. split; [exact Hnet'|]. split; [congruence|].
    split; [exact Hlock'|].
    rewrite Hs, Hss, Hl, Hsess, !map_map. repeat split.
Qed.

Lemma lxor_cancel_correction x t R :
  Z.lxor (Z.lxor x (Z.lxor t (Z.lxor x R))) R = t.
Proof.
  no_params.
  rewrite (Z.lxor_comm t), <- !Z.lxor_assoc.
  rewrite Z.lxor_nilpotent, Z.lxor_0_l.
  rewrite (Z.lxor_comm R t), Z.lxor_assoc, Z.lxor_nilpotent. apply Z.lxor_0_r.
Qed.

(** XOR-ing the shares of the other parties into the first one: entry by
    entry, the XOR of all. *)
Lemma fold_ring_xor_ rest : forall x n,
  List.length (nd_data x) = n ->
  Forall (fun r => List.length (nd_data r) = n) rest ->
  let s := fold_left ring_xor_ rest x in
  nd_eltype s = nd_eltype x /\ nd_shape s = nd_shape x /\
  List.length (nd_data s) = n /\
  forall i, (i < n)%nat ->
    nth i (nd_data s) 0
    = Z.lxor (nth i (nd_data x) 0) (zxor (map (fun r => nth i (nd_data r) 0) rest)).
Proof.
  no_params.
  induction rest as [|r rest IH]; intros x n Hn Hrest; simpl.
  - repeat split; auto. intros i Hi. now rewrite Z.lxor_0_r.
  - inversion Hrest as [|? ? Hr Hrest']; subst.
    assert (Hlen : List.length (nd_data (ring_xor_ x r)) = List.length (nd_data x)).
    { simpl. rewrite zip_with_length. lia. }
    destruct (IH (ring_xor_ x r) (List.length (nd_data x)) Hlen Hrest')
      as (He & Hs & Hl & Hnth).
    repeat split; auto.
    intros i Hi. rewrite Hnth by exact Hi. simpl.
    rewrite nth_zip_with by lia. now rewrite Z.lxor_assoc.
Qed.

(** The correction identity of the boolean operations: when rank 0 XORs
    (ideal xor XOR of what everybody drew) into its own share, the shares
    XOR to the ideal value. *)
Lemma ring_xor_corrected x rest ideal :
  nd_eltype ideal = nd_eltype x -> nd_shape ideal = nd_shape x ->
  List.length (nd_data ideal) = List.length (nd_data x) ->
  Forall (fun r => List.length (nd_data r) = List.length (nd_data x)) rest ->
  reduce_arrays ring_xor_
    (ring_xor_ x (ring_xor_ ideal (reduce_arrays ring_xor_ (x :: rest))) :: rest)
  = ideal.
Proof.
  no_params.
  intros He Hsh Hlen Hrest. unfold reduce_arrays.
  set (n := List.length (nd_data x)) in *.
  destruct (fold_ring_xor_ rest x n eq_refl Hrest) as (Se & Ss & Sl & Snth).
  set (S := fold_left ring_xor_ rest x) in *.
  assert (Hadj : List.length (nd_data (ring_xor_ ideal S)) = n).
  { simpl. rewrite zip_with_length. lia. }
  assert (Hx' : List.length (nd_data (ring_xor_ x (ring_xor_ ideal S))) = n).
  { simpl. rewrite zip_with_length. simpl in Hadj. fold n. lia. }
  destruct (fold_ring_xor_ rest _ n Hx' Hrest) as (Te & Ts & Tl & Tnth).
  set (T := fold_left ring_xor_ rest (ring_xor_ x (ring_xor_ ideal S))) in *.
  destruct T as [Tf Tshape Tdata], ideal as [If Ishape Idata]; simpl in *.
  subst Tf Tshape If Ishape. f_equal.
  apply nth_ext with (d := 0) (d' := 0); [lia|].
  intros i Hi. rewrite Tl in Hi. rewrite Tnth by exact Hi.
  rewrite nth_zip_with by (rewrite ?zip_with_length; fold n; lia).
  rewrite nth_zip_with by (fold n; lia).
  rewrite Snth by exact Hi.
  apply lxor_cancel_correction.
Qed.

Lemma replay_xor_props desc seed seeds :
  let rs := reduce_arrays ring_xor_
              (prgReplayArray seed desc :: map (fun s => prgReplayArray s desc) seeds) in
  nd_eltype rs = desc_field desc /\ nd_shape rs = desc_shape desc /\
  List.length (nd_data rs) = Z.to_nat (numel (desc_shape desc)).
Proof.
  simpl.
  destruct (fold_ring_xor_ (map (fun s => prgReplayArray s desc) seeds)
              (prgReplayArray seed desc) (Z.to_nat (numel (desc_shape desc))))
    as (He & Hs & Hl & _).
  - simpl. apply prg_elements_length.
  - apply Forall_forall. intros r Hr. apply in_map_iff in Hr.
    destruct Hr as [s [<- _]]. simpl. apply prg_elements_length.
  - repeat split; auto.
Qed.

Lemma xor_input_shares field shape cx desc p0 rest :
  desc_field desc = field -> desc_shape desc = shape -> desc_counter desc = cx ->
  reduce_arrays ring_xor_
    (drawn field shape (seed_ p0) cx
     :: map (fun p => drawn field shape (seed_ p) cx) rest)
  = reduce_arrays ring_xor_
      (prgReplayArray (seed_ p0) desc
       :: map (fun s => prgReplayArray s desc) (map seed_ rest)).
Proof.
  intros <- <- <-. simpl. now rewrite map_map.
Qed.

(** X10 (And), with the aggregator's adjustment as the specification
    describes it: the C shares of the parties, XOR-ed together, are the
    bitwise AND of the XOR of their A shares and the XOR of their B
    shares; rank 0 XORs the adjustment into its c and no other share is
    touched. *)
Theorem And_reconstructs_conjunction field shape parties env :
  in_lockstep parties ->
  exists outs env',
    run_parties (fun p => And p field shape) parties env = Some (outs, env')
    /\ reduce_arrays ring_xor_ (map triple_C outs)
       = ring_and (reduce_arrays ring_xor_ (map triple_A outs))
                  (reduce_arrays ring_xor_ (map triple_B outs))
    /\ net env' = net env.
Proof.
  intros Hlock. destruct parties as [|p0 rest]; [contradiction|].
  destruct (lockstep_inv p0 rest Hlock) as (Hr0 & Hseeds & Hrest).
  eexists _, _. split; [|split].
  - apply (run_parties_total _ _ _ (fun p env => And_run p field shape env)).
  - rewrite !map_map.
    rewrite (all_shares (fun p => triple_A _) field shape (fun c => c) p0 rest Hrest)
      by reflexivity.
    rewrite (all_shares (fun p => triple_B _) field shape
               (fun c => advance c shape) p0 rest Hrest) by reflexivity.
    cbn [map]. unfold triple_C at 1; cbn [fst snd].
    rewrite Hr0; cbn [Nat.eqb].
    rewrite (rest_shares (fun p => triple_C _) field shape
               (fun c => advance (advance c shape) shape) p0 rest Hrest).
    2:{ intros p Hp. unfold triple_C; simpl.
        apply Nat.eqb_neq in Hp. now rewrite Hp. }
    unfold adjustAnd. rewrite Hseeds. cbn [reconstruct map nth].
    set (d0 := desc_at field shape (seed_ p0) (counter_ p0)).
    set (d1 := desc_at field shape (seed_ p0) (advance (counter_ p0) shape)).
    set (d2 := desc_at field shape (seed_ p0) (advance (advance (counter_ p0) shape) shape)).
    rewrite (xor_input_shares field shape _ d0 p0 rest) by reflexivity.
    rewrite (xor_input_shares field shape _ d1 p0 rest) by reflexivity.
    destruct (replay_xor_props d0 (seed_ p0) (map seed_ rest)) as (E0 & S0 & L0).
    destruct (replay_xor_props d1 (seed_ p0) (map seed_ rest)) as (E1 & S1 & L1).
    cbn [map] in E0, S0, L0, E1, L1.
    rewrite <- (xor_input_shares field shape _ d2 p0 rest) by reflexivity.
    apply ring_xor_corrected.
    + exact E0.
    + exact S0.
    + cbn [ring_and nd_data drawn]. rewrite zip_with_length, L0, L1.
      rewrite prg_elements_length. simpl. lia.
    + apply Forall_forall. intros r Hr. apply in_map_iff in Hr.
      destruct Hr as [p [<- _]]. simpl. now rewrite !prg_elements_length.
  - reflexivity.
Qed.

Lemma Spawn_effect_counter self env child self' env' :
  Spawn self env = Some ((child, self'), env') ->
  counter_ child = 0 /\ rng_pos env' = S (rng_pos env).
Proof.
  unfold Spawn, bind. cbn [Context_Spawn].
  destruct (BeaverTfpUnsafe_new _ env) as [[c e]|] eqn:Hnew; [|discriminate].
  unfold ret. intros [= <- <- <-].
  destruct (new_effect _ _ _ _ Hnew) as (_ & _ & Hc & Hpos & _). auto.
Qed.

Lemma no_owner_among perm_rank l :
  Forall (fun p => Rank (lctx_ p) <> perm_rank) l ->
  filter (is_owner perm_rank) l = [].
Proof.
  no_params.
  induction 1 as [|p l Hp _ IH]; [reflexivity|].
  cbn [filter]. unfold is_owner at 1.
  destruct (Nat.eqb_spec perm_rank (Rank (lctx_ p))); [congruence|exact IH].
Qed.

(** X11: PermPair does not check [perm_rank] against the parties there
    are.  When it is the rank of none of them, nobody sends the vector and
    rank 0, which waits for it, never completes the call: the parties
    together do not get through it. *)
Theorem PermPair_without_owner_never_returns
    field shape perm_rank perm_vec_of parties env :
  in_lockstep parties -> net env = [] ->
  (List.length parties <= perm_rank)%nat ->
  run_parties (PermPair_call field shape perm_rank perm_vec_of) parties env = None.
Proof.
  intros Hlock Hnet Hge.
  destruct parties as [|p0 rest]; [contradiction|].
  pose proof Hlock as [_ Hranks].
  destruct (lockstep_inv p0 rest Hlock) as (Hr0 & _ & Hrest).
  assert (Hnz : Forall (fun p => Rank (lctx_ p) <> 0%nat) rest).
  { eapply Forall_impl; [|exact Hrest]. now intros p [H _]. }
  assert (Hnone : Forall (fun p => Rank (lctx_ p) <> perm_rank) rest).
  { apply Forall_forall. intros p Hin.
    destruct (In_nth_error _ _ Hin) as [r Hr].
    destruct (Hranks (S r) p Hr) as [Hp _].
    assert (r < List.length rest)%nat by (apply nth_error_Some; congruence).
    cbn [List.length] in Hge. lia. }
  cbn [run_parties]. unfold bind.
  rewrite (PermPair_rest field shape perm_rank perm_vec_of rest env Hnz).
  rewrite filter_rev, (no_owner_among perm_rank rest Hnone), Hnet.
  unfold PermPair_call. rewrite PermPair_run. cbv zeta.
  rewrite Hr0. cbn [Nat.eqb net rev map app].
  assert (Hremote : Nat.eqb perm_rank 0 = false).
  { apply Nat.eqb_neq. cbn [List.length] in Hge. lia. }
  rewrite Hremote. reflexivity.
Qed.

Lemma lockstep_after_Spawn parties :
  in_lockstep parties -> in_lockstep (map after_Spawn parties).
Proof.
  no_params.
  destruct parties as [|p0 rest]; [contradiction|].
  intros [Hseeds Hall]. split.
  - cbn [map after_Spawn seeds_]. rewrite Hseeds. cbn [map]. f_equal.
    now rewrite map_map.
  - intros r p Hp. apply nth_error_map_inv in Hp.
    destruct Hp as (q & Hq & ->). destruct (Hall r q Hq) as (H1 & H2 & H3).
    cbn [map after_Spawn lctx_ counter_ Context_Spawn snd Rank ctx_rank ctx_id].
    repeat split; auto.
Qed.

(** X12: all parties spawning together (from link contexts that have
    spawned equally often, nothing being in flight): every Spawn returns;
    the children start at counter zero, are in lockstep, and rank 0's child
    holds the seeds of all the children; one entropy value was consumed per
    party and nothing stays in flight; the parents, if they were in
    lockstep, still are, with the seeds and counters they had. *)
Theorem Spawn_together_completes parties env k :
  well_ranked (map lctx_ parties) ->
  Forall (fun p => ctx_child_counter (lctx_ p) = k) parties ->
  net env = [] ->
  exists outs env',
    run_parties Spawn parties env = Some (outs, env')
    /\ in_lockstep (map fst outs)
    /\ Forall (fun child => counter_ child = 0) (map fst outs)
    /\ map (fun child => ctx_id (lctx_ child)) (map fst outs)
       = map (fun p => ctx_id (lctx_ p) ++ [k]) parties
    /\ net env' = []
    /\ rng_pos env' = (rng_pos env + List.length parties)%nat
    /\ map seed_ (map snd outs) = map seed_ parties
    /\ map counter_ (map snd outs) = map counter_ parties
    /\ (in_lockstep parties -> in_lockstep (map snd outs)).
Proof.
  intros Hwr Hk Hnet.
  destruct (Spawn_all_return parties env k Hwr Hk Hnet)
    as (outs & env' & Hrun & Hlock & Hctx & Hsnd & Hnet').
  exists outs, env'. split; [exact Hrun|]. split; [exact Hlock|].
  pose proof (run_parties_each _ _ _ _ _ Hrun) as Heach.
  split; [|split; [|split; [exact Hnet'|split; [|split; [|split]]]]].
  - clear - Heach. induction Heach as [|p out ps os (e1 & e2 & Hp) _ IH];
      cbn [map]; constructor; auto.
    destruct out as [child parent].
    destruct (Spawn_effect_counter _ _ _ _ _ Hp) as [Hc _]. exact Hc.
  - rewrite <- (map_map lctx_ ctx_id), Hctx, map_map.
    apply map_ext_in. intros p Hin. rewrite Forall_forall in Hk.
    unfold spawned_ctx. cbn [Context_Spawn fst ctx_id]. now rewrite (Hk p Hin).
  - assert (Hgen : forall ps os, Forall2
              (fun p out => exists e1 e2, Spawn p e1 = Some (out, e2)) ps os ->
              forall e e', run_parties Spawn ps e = Some (os, e') ->
              rng_pos e' = (rng_pos e + List.length ps)%nat).
    { induction 1 as [|p out ps os _ _ IH]; intros e e' Hr.
      - injection Hr as <-. cbn. lia.
      - cbn [run_parties] in Hr. unfold bind in Hr.
        destruct (run_parties Spawn ps e) as [[rs e1]|] eqn:Hrs; [|discriminate].
        destruct (Spawn p e1) as [[r e2]|] eqn:Hp; [|discriminate].
        injection Hr as <- <- <-. destruct r as [child parent].
        destruct (Spawn_effect_counter _ _ _ _ _ Hp) as [_ Hpos].
        rewrite Hpos, (IH e e1 Hrs). cbn [List.length]. lia. }
    eapply Hgen; eauto.
  - rewrite Hsnd, map_map. reflexivity.
  - rewrite Hsnd, map_map. reflexivity.
  - intros Hl. rewrite Hsnd. now apply lockstep_after_Spawn.
Qed.

End Beaver.


(* ===================================================================== *)
(** ** The model evaluated on concrete runs *)
(* ===================================================================== *)

Example ring_arshift_keeps_sign :
  nd_data (ring_arshift (mkNdArray FM32 [2] [4294967280; 20]) 2) = [4294967292; 5].
Proof. reflexivity. Qed.

Example ring_mmul_2x2 :
  nd_data (ring_mmul (mkNdArray FM64 [2; 2] [1; 2; 3; 4])
                     (mkNdArray FM64 [2; 2] [5; 6; 7; 8]) 2 2 2)
  = [19; 22; 43; 50].
Proof. reflexivity. Qed.

Example ring_mmul_row_by_column :
  nd_data (ring_mmul (mkNdArray FM64 [1; 3] [1; 2; 3])
                     (mkNdArray FM64 [3; 1] [4; 5; 6]) 1 1 3)
  = [32].
Proof. reflexivity. Qed.

Example applyPerm_gathers :
  nd_data (applyPerm (mkNdArray FM64 [4] [10; 20; 30; 40]) [2; 0; 3; 1])
  = [30; 10; 40; 20].
Proof. reflexivity. Qed.

Example perm_vec_through_Buffer :
  MakeSpan_int64 (Buffer_of_int64s [-1; 5; 9223372036854775807])
  = [-1; 5; 9223372036854775807].
Proof. vm_compute. reflexivity. Qed.

(** Shifting the sum of two shares is not shifting each share: in the
    32-bit ring, shares 3 and 2^32 - 1 sum to 2, and 2 >> 1 = 1, whereas
    the shifted shares sum to 1 + (2^32 - 1) = 0. *)
Example shift_of_sum_is_not_sum_of_shifts :
  let a0 := mkNdArray FM32 [1] [3] in
  let a1 := mkNdArray FM32 [1] [4294967295] in
  nd_data (ring_arshift (ring_add_ a0 a1) 1) = [1]
  /\ nd_data (ring_add_ (ring_arshift a0 1) (ring_arshift a1 1)) = [0].
Proof. split; reflexivity. Qed.

Lemma toy_parties_constructed :
  option_map fst (run_parties (BeaverTfpUnsafe_new toy_entropy) (world [] 3) env0)
  = Some toy_parties.
Proof. vm_compute. reflexivity. Qed.

Lemma toy_parties_in_lockstep : in_lockstep toy_parties.
Proof.
  split; [reflexivity|].
  intros [|[|[|r]]] p Hp; simpl in Hp; try (injection Hp as <-; auto).
  destruct r; discriminate.
Defined.

Lemma world_3_well_ranked : well_ranked (world [] 3).
Proof.
  split; [reflexivity|].
  intros [|[|[|r]]] lctx Hr; simpl in Hr; try (injection Hr as <-; auto).
  destruct r; discriminate.
Defined.

Lemma Mul_reconstructs_product_witness :
  in_lockstep toy_parties
  /\ exists outs env',
       run_parties (fun p => Mul toy_prg p FM64 [4]) toy_parties env0 = Some (outs, env')
       /\ ring_sum (map triple_C outs)
          = ring_mul (ring_sum (map triple_A outs)) (ring_sum (map triple_B outs))
       /\ nd_data (ring_sum (map triple_C outs))
          = [14495540757814603136; 11177814183033022973;
             7860087637780316972; 4542361122056485133].
Proof.
  split; [exact toy_parties_in_lockstep|].
  destruct (Mul_reconstructs_product toy_prg FM64 [4] toy_parties env0
              toy_parties_in_lockstep) as (outs & env' & Hrun & Hsum & _).
  exists outs, env'. split; [exact Hrun|]. split; [exact Hsum|].
  vm_compute in Hrun. injection Hrun as <- _. vm_compute. reflexivity.
Defined.


Lemma Trunc_reconstructs_shift_witness :
  in_lockstep toy_parties
  /\ exists outs env',
       run_parties (fun p => Trunc toy_prg p FM64 [4] 3) toy_parties env0
       = Some (outs, env')
       /\ ring_sum (map pair_B outs) = ring_arshift (ring_sum (map pair_A outs)) 3.
Proof.
  split; [exact toy_parties_in_lockstep|].
  destruct (Trunc_reconstructs_shift toy_prg FM64 [4] 3 toy_parties env0
              toy_parties_in_lockstep) as (outs & env' & Hrun & Hsum & _).
  exists outs, env'. auto.
Defined.

Lemma counter_ranges_never_overlap_witness :
  let self := nth 0 toy_parties no_party in
  let calls := [CallMul FM64 [4]; CallPermPair FM64 [4] 0 [2; 0; 3; 1];
                CallRandBit FM32 [2; 3]; CallDot FM128 2 3 1; CallEqz FM64 []] in
  exists outs self' env',
    exec_all toy_prg toy_randbit toy_adjust2 toy_adjust self calls env0
    = Some ((outs, self'), env')
    /\ Forall positive_call calls
    /\ 0 <= counter_ self
    /\ counter_ self + calls_units calls < uint128_modulus
    /\ counter_ self < counter_ self'
    /\ forall i j d d', (i < j)%nat ->
         nth_error (draws_of (trace env')) i = Some d ->
         nth_error (draws_of (trace env')) j = Some d' ->
         desc_counter d < desc_counter_end d
         /\ desc_counter_end d <= desc_counter d'
         /\ desc_counter d' < desc_counter_end d'.
Proof.
  intros self calls.
  assert (Hrun : exists outs self' env',
             exec_all toy_prg toy_randbit toy_adjust2 toy_adjust self calls env0
             = Some ((outs, self'), env')).
  { vm_compute. eexists _, _, _. reflexivity. }
  destruct Hrun as (outs & self' & env' & Hrun).
  assert (Hpos : Forall positive_call calls).
  { repeat constructor; simpl; lia. }
  assert (Hc : 0 <= counter_ self) by (simpl; lia).
  assert (Hb : counter_ self + calls_units calls < uint128_modulus)
    by (vm_compute; reflexivity).
  destruct (counter_ranges_never_overlap toy_prg toy_randbit toy_adjust2 toy_adjust
              self calls env0 outs self' env' Hrun Hpos Hc Hb)
    as (Hinc & _ & _ & Hdisj).
  exists outs, self', env'. repeat (split; [assumption|]).
  split; [apply Hinc; discriminate|]. exact Hdisj.
Defined.

Lemma PermPair_reconstructs_permutation_witness :
  in_lockstep toy_parties /\ (2 < List.length toy_parties)%nat /\ net env0 = []
  /\ valid_perm_vec [4] (toy_perm_at_2 2) /\ numel [4] <= 2 ^ 63
  /\ valid_perm_vec [4] (toy_perm_at_0 0)
  /\ (exists outs env' owner,
        run_parties (PermPair_call toy_prg FM64 [4] 2 toy_perm_at_2) toy_parties env0
        = Some (outs, env')
        /\ ring_sum (map pair_B outs)
           = applyPerm (ring_sum (map pair_A outs)) [2; 0; 3; 1]
        /\ comm_of (trace env')
           = [EvSend (perm_message owner [2; 0; 3; 1]);
              EvRecv (perm_message owner [2; 0; 3; 1])])
  /\ (exists outs env',
        run_parties (PermPair_call toy_prg FM64 [4] 0 toy_perm_at_0) toy_parties env0
        = Some (outs, env')
        /\ ring_sum (map pair_B outs)
           = applyPerm (ring_sum (map pair_A outs)) [2; 0; 3; 1]
        /\ comm_of (trace env') = []).
Proof.
  assert (Hv2 : valid_perm_vec [4] (toy_perm_at_2 2)).
  { split; [reflexivity|]. repeat constructor; simpl; lia. }
  assert (Hv0 : valid_perm_vec [4] (toy_perm_at_0 0)).
  { split; [reflexivity|]. repeat constructor; simpl; lia. }
  assert (Hn : numel [4] <= 2 ^ 63) by (simpl; lia).
  split; [exact toy_parties_in_lockstep|].
  split; [simpl; lia|]. split; [reflexivity|].
  split; [exact Hv2|]. split; [exact Hn|]. split; [exact Hv0|]. split.
  - destruct (PermPair_reconstructs_permutation toy_prg FM64 [4] 2 toy_perm_at_2
                toy_parties env0 toy_parties_in_lockstep ltac:(simpl; lia)
                eq_refl Hv2 Hn)
      as (outs & env' & owner & Hrun & Hsum & _ & _ & Hcomm & _).
    exists outs, env', owner. auto.
  - destruct (PermPair_reconstructs_permutation toy_prg FM64 [4] 0 toy_perm_at_0
                toy_parties env0 toy_parties_in_lockstep ltac:(simpl; lia)
                eq_refl Hv0 Hn)
      as (outs & env' & owner & Hrun & Hsum & _ & _ & Hcomm & _).
    exists outs, env'. auto.
Defined.

Lemma seed_roster_confined_witness :
  well_ranked (world [] 3) /\ net env0 = []
  /\ exists parties env',
       run_parties (BeaverTfpUnsafe_new toy_entropy) (world [] 3) env0
       = Some (parties, env')
       /\ parties = toy_parties
       /\ (forall r p, nth_error parties r = Some p -> r <> 0%nat -> seeds_ p = [])
       /\ (forall p0, nth_error parties 0 = Some p0 ->
             List.length (seeds_ p0) = List.length parties
             /\ forall r p, nth_error parties r = Some p ->
                  nth_error (seeds_ p0) r = Some (seed_ p)).
Proof.
  split; [exact world_3_well_ranked|]. split; [reflexivity|].
  destruct (seed_roster_confined toy_prg toy_randbit toy_adjust2 toy_adjust toy_entropy
              (mkContext [] 0 3 0) [mkContext [] 1 3 0; mkContext [] 2 3 0] env0
              world_3_well_ranked eq_refl)
    as (parties & env' & Hrun & _ & Hrest & Hroot & _).
  exists parties, env'. split; [exact Hrun|]. split; [|split; assumption].
  vm_compute in Hrun. now injection Hrun as <- _.
Defined.

Lemma PermPair_bystander_is_silent_witness :
  let self := nth 1 toy_parties no_party in
  ((Rank (lctx_ self) <> 0%nat /\ Rank (lctx_ self) <> 2%nat) \/ 2%nat = 0%nat)
  /\ exists out self' evs,
       PermPair toy_prg self FM64 [4] 2 [] env0
       = Some ((out, self'), mkEnv (net env0) (trace env0 ++ evs) (rng_pos env0))
       /\ comm_of evs = []
       /\ List.length evs = 2%nat
       /\ out = (drawn toy_prg FM64 [4] 2000023 0, drawn toy_prg FM64 [4] 2000023 4).
Proof.
  intros self.
  assert (Hcase : (Rank (lctx_ self) <> 0%nat /\ Rank (lctx_ self) <> 2%nat)
                  \/ 2%nat = 0%nat) by (left; simpl; lia).
  split; [exact Hcase|].
  destruct (PermPair_bystander_is_silent toy_prg self FM64 [4] 2 [] env0 Hcase)
    as (out & self' & evs & Hrun & Hcomm & _ & Hlen & _ & Hout).
  exists out, self', evs. repeat (split; [assumption|]).
  apply Hout. simpl; lia.
Defined.


Lemma nonzero_rank_returns_generated_witness :
  Rank (lctx_ (nth 2 toy_parties no_party)) <> 0%nat
  /\ exists env',
       exec toy_prg toy_randbit toy_adjust2 toy_adjust
            (nth 2 toy_parties no_party)
            (CallPermPair FM64 [4] 2 [2; 0; 3; 1]) env0
       = Some ((map fst (fst (generated toy_prg FM64 [[4]; [4]] 1000020 0)),
                mkBeaver (mkContext [] 2 3 0) 1000020 8 []), env').
Proof.
  split; [simpl; lia|].
  apply (nonzero_rank_returns_generated toy_prg toy_randbit toy_adjust2 toy_adjust
           (nth 2 toy_parties no_party)
           (CallPermPair FM64 [4] 2 [2; 0; 3; 1]) env0).
  simpl; lia.
Defined.

Lemma Eqz_corrects_by_xor_RandBit_by_add_witness :
  let self := mkBeaver (mkContext [] 0 2 0) 7 0 [7; 9] in
  Rank (lctx_ self) = 0%nat
  /\ (exists self' env',
        RandBit toy_prg toy_randbit self FM64 [2] env0
        = Some ((ring_add_ (drawn toy_prg FM64 [2] 7 0)
                   (adjustRandBit toy_prg toy_randbit [desc_at FM64 [2] 7 0] [7; 9]),
                 self'), env'))
  /\ (exists a self' env',
        Eqz toy_prg toy_adjust self FM64 [2] env0
        = Some ((a, ring_xor_ (drawn toy_prg FM64 [2] 7 2)
                      (toy_adjust [desc_at FM64 [2] 7 0; desc_at FM64 [2] 7 2] [7; 9]),
                 self'), env')).
Proof.
  split; [reflexivity|].
  apply (Eqz_corrects_by_xor_RandBit_by_add toy_prg toy_randbit toy_adjust
           (mkBeaver (mkContext [] 0 2 0) 7 0 [7; 9]) FM64 [2] env0).
  reflexivity.
Defined.

(** C3, as stated, fails for RandBit: at rank 0 the returned share is the
    drawn array plus the adjustment, and differs from their XOR. *)
Lemma RandBit_correction_is_not_xor :
  let self := mkBeaver (mkContext [] 0 2 0) 7 0 [7; 9] in
  let a := drawn toy_prg FM64 [2] 7 0 in
  let adjust := adjustRandBit toy_prg toy_randbit [desc_at FM64 [2] 7 0] [7; 9] in
  exists out self' env',
    RandBit toy_prg toy_randbit self FM64 [2] env0 = Some ((out, self'), env')
    /\ out = ring_add_ a adjust
    /\ nd_data a = [18581062672; 18581103175]
    /\ nd_data adjust = [18446744031238554750; 18446744031238473744]
    /\ nd_data out = [18446744049819617422; 18446744049819576919]
    /\ nd_data (ring_xor_ a adjust) = [18446744014906228846; 18446744014905666135]
    /\ out <> ring_xor_ a adjust.
Proof.
  intros self a adjust. rewrite RandBit_run.
  eexists _, _, _. split; [reflexivity|]. split; [reflexivity|].
  vm_compute. repeat split. discriminate.
Qed.

(* ===================================================================== *)
(** ** The further properties on concrete runs *)
(* ===================================================================== *)

Lemma local_calls_never_communicate_witness :
  let self := nth 0 toy_parties no_party in
  let call := CallTruncPr FM64 [4] 2 in
  is_PermPair call = false
  /\ exists out self' evs,
       exec toy_prg toy_randbit toy_adjust2 toy_adjust self call toy_spawn_env
       = Some ((out, self'),
               mkEnv (net toy_spawn_env) (trace toy_spawn_env ++ evs)
                     (rng_pos toy_spawn_env))
       /\ comm_of evs = []
       /\ List.length evs = 3%nat /\ List.length out = 3%nat.
Proof.
  intros self call. split; [reflexivity|].
  apply (local_calls_never_communicate toy_prg toy_randbit toy_adjust2 toy_adjust
           self call toy_spawn_env).
  reflexivity.
Defined.

Lemma only_designated_shares_are_corrected_witness :
  let self := nth 0 toy_parties no_party in
  let call := CallDot FM64 2 3 1 in
  exists out self' env',
    exec toy_prg toy_randbit toy_adjust2 toy_adjust self call env0
    = Some ((out, self'), env')
    /\ nth_error out 0 = Some (drawn toy_prg FM64 [2; 1] 3000026 0)
    /\ nth_error out 1 = Some (drawn toy_prg FM64 [1; 3] 3000026 2)
    /\ Forall2 (fun x shape => nd_eltype x = FM64 /\ nd_shape x = shape)
               out [[2; 1]; [1; 3]; [2; 3]].
Proof.
  intros self call.
  assert (Hrun : exists out self' env',
             exec toy_prg toy_randbit toy_adjust2 toy_adjust self call env0
             = Some ((out, self'), env')).
  { vm_compute. eexists _, _, _. reflexivity. }
  destruct Hrun as (out & self' & env' & Hrun).
  destruct (only_designated_shares_are_corrected toy_prg toy_randbit toy_adjust2
              toy_adjust self call env0 out self' env' Hrun) as (Hshapes & Hplain).
  exists out, self', env'. split; [exact Hrun|].
  split; [apply (Hplain 0%nat); cbn; lia|].
  split; [apply (Hplain 1%nat); cbn; lia|].
  cbn in Hshapes.
  inversion Hshapes as [|x0 d0 l0 g0 H0 Hs0]; subst.
  inversion Hs0 as [|x1 d1 l1 g1 H1 Hs1]; subst.
  inversion Hs1 as [|x2 d2 l2 g2 H2 Hs2]; subst.
  inversion Hs2; subst. repeat constructor; tauto.
Defined.

Lemma PermPair_reads_only_owner_vector_witness :
  let self := nth 1 toy_parties no_party in
  Rank (lctx_ self) <> 2%nat
  /\ PermPair toy_prg self FM64 [4] 2 [] env0
     = PermPair toy_prg self FM64 [4] 2 [2; 0; 3; 1] env0.
Proof.
  intros self.
  assert (Hrank : Rank (lctx_ self) <> 2%nat) by (simpl; lia).
  split; [exact Hrank|].
  apply (PermPair_reads_only_owner_vector toy_prg self FM64 [4] 2 [] [2; 0; 3; 1]
           env0 Hrank).
Defined.

Lemma MakeSpan_int64_reads_whole_elements_witness :
  let perm_vec := [-1; 5; 9223372036854775807; -9223372036854775808] in
  let extra := [7; 7; 7] in
  Forall is_int64 perm_vec /\ (List.length extra < 8)%nat
  /\ List.length (Buffer_of_int64s perm_vec) = 32%nat
  /\ MakeSpan_int64 (Buffer_of_int64s perm_vec) = perm_vec
  /\ MakeSpan_int64 (Buffer_of_int64s perm_vec ++ extra) = perm_vec.
Proof.
  intros perm_vec extra.
  assert (Hint : Forall is_int64 perm_vec).
  { repeat constructor; unfold is_int64; lia. }
  assert (Hextra : (List.length extra < 8)%nat) by (simpl; lia).
  split; [exact Hint|]. split; [exact Hextra|].
  apply (MakeSpan_int64_reads_whole_elements perm_vec extra Hint Hextra).
Defined.

Lemma constructor_roster_shape_witness :
  let lctx := mkContext [0%nat] 0 3 0 in
  exists self env',
    BeaverTfpUnsafe_new toy_entropy lctx toy_spawn_env = Some (self, env')
    /\ 0 <= seed_ self < uint128_modulus
    /\ List.length (seeds_ self) = 3%nat
    /\ nth_error (seeds_ self) 0 = Some (seed_ self).
Proof.
  intros lctx.
  assert (Hrun : exists self env',
             BeaverTfpUnsafe_new toy_entropy lctx toy_spawn_env = Some (self, env')).
  { vm_compute. eexists _, _. reflexivity. }
  destruct Hrun as (self & env' & Hrun).
  destruct (constructor_roster_shape toy_entropy lctx toy_spawn_env self env' Hrun)
    as (Hseed & Hroot & _).
  destruct (Hroot eq_refl) as [Hlen Hown].
  exists self, env'. split; [exact Hrun|]. split; [exact Hseed|].
  split; [exact Hlen|]. apply Hown. discriminate.
Defined.

Lemma single_party_constructs_alone_witness :
  let lctx := mkContext [] 0 1 0 in
  Rank lctx = 0%nat /\ WorldSize lctx = 1%nat
  /\ BeaverTfpUnsafe_new toy_entropy lctx env0
     = Some (mkBeaver lctx (sampled toy_entropy 0) 0 [sampled toy_entropy 0],
             mkEnv [] [] 1).
Proof.
  intros lctx. split; [reflexivity|]. split; [reflexivity|].
  apply (single_party_constructs_alone toy_entropy lctx env0); reflexivity.
Defined.

Lemma Spawn_leaves_parent_stream_witness :
  let self := nth 2 toy_parties no_party in
  let call := CallPermPair FM64 [4] 2 [2; 0; 3; 1] in
  exists child self' env',
    Spawn toy_entropy self env0 = Some ((child, self'), env')
    /\ exec toy_prg toy_randbit toy_adjust2 toy_adjust self' call env'
       = match exec toy_prg toy_randbit toy_adjust2 toy_adjust self call env' with
         | Some ((out, s), e') => Some ((out, after_Spawn s), e')
         | None => None
         end.
Proof.
  intros self call.
  assert (Hrun : exists child self' env',
             Spawn toy_entropy self env0 = Some ((child, self'), env')).
  { vm_compute. eexists _, _, _. reflexivity. }
  destruct Hrun as (child & self' & env' & Hrun).
  exists child, self', env'. split; [exact Hrun|].
  apply (Spawn_leaves_parent_stream toy_prg toy_randbit toy_adjust2 toy_adjust
           toy_entropy self env0 child self' env' call env' Hrun).
Defined.

Lemma protocol_run_completes_witness :
  let calls := [CallMul FM64 [4]; CallPermPair FM64 [4] 2 [2; 0; 3; 1];
                CallEqz FM32 [2]; CallPermPair FM64 [4] 0 [2; 0; 3; 1];
                CallTruncPr FM128 [] 5] in
  in_lockstep toy_parties /\ net env0 = []
  /\ Forall (call_ready (List.length toy_parties)) calls
  /\ exists parties' env',
       run_calls toy_prg toy_randbit toy_adjust2 toy_adjust toy_parties calls env0
       = Some (parties', env')
       /\ net env' = [] /\ rng_pos env' = rng_pos env0
       /\ in_lockstep parties'
       /\ map seed_ parties' = map seed_ toy_parties.
Proof.
  intros calls.
  assert (Hready : Forall (call_ready (List.length toy_parties)) calls).
  { repeat constructor; unfold is_int64; simpl; lia. }
  split; [exact toy_parties_in_lockstep|]. split; [reflexivity|].
  split; [exact Hready|].
  destruct (protocol_run_completes toy_prg toy_randbit toy_adjust2 toy_adjust
              calls toy_parties env0 toy_parties_in_lockstep eq_refl Hready)
    as (parties' & env' & Hrun & Hnet & Hrng & Hlock & Hseed & _).
  exists parties', env'. auto.
Defined.

Lemma same_calls_same_counter_witness :
  let s1 := nth 0 toy_parties no_party in
  let s2 := nth 2 toy_parties no_party in
  let calls := [CallMul FM64 [4]; CallPermPair FM64 [4] 0 [2; 0; 3; 1];
                CallDot FM32 2 3 1] in
  exists outs1 s1' e1' outs2 s2' e2',
    exec_all toy_prg toy_randbit toy_adjust2 toy_adjust s1 calls env0
    = Some ((outs1, s1'), e1')
    /\ exec_all toy_prg toy_randbit toy_adjust2 toy_adjust s2 calls toy_spawn_env
       = Some ((outs2, s2'), e2')
    /\ counter_ s1 = counter_ s2
    /\ counter_ s1' = counter_ s2'.
Proof.
  intros s1 s2 calls.
  assert (H1 : exists outs1 s1' e1',
             exec_all toy_prg toy_randbit toy_adjust2 toy_adjust s1 calls env0
             = Some ((outs1, s1'), e1')).
  { vm_compute. eexists _, _, _. reflexivity. }
  assert (H2 : exists outs2 s2' e2',
             exec_all toy_prg toy_randbit toy_adjust2 toy_adjust s2 calls toy_spawn_env
             = Some ((outs2, s2'), e2')).
  { vm_compute. eexists _, _, _. reflexivity. }
  destruct H1 as (outs1 & s1' & e1' & H1). destruct H2 as (outs2 & s2' & e2' & H2).
  exists outs1, s1', e1', outs2, s2', e2'.
  split; [exact H1|]. split; [exact H2|]. split; [reflexivity|].
  apply (same_calls_same_counter toy_prg toy_randbit toy_adjust2 toy_adjust calls
           s1 env0 outs1 s1' e1' s2 toy_spawn_env outs2 s2' e2' H1 H2 eq_refl).
Defined.

Lemma And_reconstructs_conjunction_witness :
  in_lockstep toy_parties
  /\ exists outs env',
       run_parties (fun p => And toy_prg p FM64 [4]) toy_parties env0 = Some (outs, env')
       /\ reduce_arrays ring_xor_ (map triple_C outs)
          = ring_and (reduce_arrays ring_xor_ (map triple_A outs))
                     (reduce_arrays ring_xor_ (map triple_B outs)).
Proof.
  split; [exact toy_parties_in_lockstep|].
  destruct (And_reconstructs_conjunction toy_prg FM64 [4] toy_parties env0
              toy_parties_in_lockstep) as (outs & env' & Hrun & Hxor & _).
  exists outs, env'. auto.
Defined.

Lemma PermPair_without_owner_never_returns_witness :
  in_lockstep toy_parties /\ net env0 = []
  /\ (List.length toy_parties <= 3)%nat
  /\ run_parties (PermPair_call toy_prg FM64 [4] 3 toy_perm_at_2) toy_parties env0 = None.
Proof.
  split; [exact toy_parties_in_lockstep|]. split; [reflexivity|].
  split; [simpl; lia|].
  apply (PermPair_without_owner_never_returns toy_prg FM64 [4] 3 toy_perm_at_2
           toy_parties env0 toy_parties_in_lockstep eq_refl).
  simpl; lia.
Defined.

Lemma Spawn_together_completes_witness :
  well_ranked (map lctx_ toy_parties)
  /\ Forall (fun p => ctx_child_counter (lctx_ p) = 0%nat) toy_parties
  /\ net env0 = []
  /\ exists outs env',
       run_parties (Spawn toy_entropy) toy_parties env0 = Some (outs, env')
       /\ in_lockstep (map fst outs)
       /\ Forall (fun child => counter_ child = 0) (map fst outs)
       /\ map (fun child => ctx_id (lctx_ child)) (map fst outs)
          = [[0%nat]; [0%nat]; [0%nat]]
       /\ net env' = [] /\ rng_pos env' = 3%nat
       /\ in_lockstep (map snd outs).
Proof.
  assert (Hk : Forall (fun p => ctx_child_counter (lctx_ p) = 0%nat) toy_parties).
  { repeat constructor. }
  split; [exact world_3_well_ranked|]. split; [exact Hk|]. split; [reflexivity|].
  destruct (Spawn_together_completes toy_entropy toy_parties env0 0
              world_3_well_ranked Hk eq_refl)
    as (outs & env' & Hrun & Hlock & Hzero & Hids & Hnet & Hrng & _ & _ & Hparents).
  exists outs, env'. repeat (split; [assumption|]).
  apply Hparents. exact toy_parties_in_lockstep.
Defined.
